(** * Kommo MCP: custom-field resolution and select-option matching

    A shallow embedding of [updateLeadCustomFields] (leads/write.ts) and of
    the read helpers it calls ([getLeadCustomFields], [searchLeadCustomField],
    [getLeadCustomFieldsMetadata], [getSelectFieldOptions] in leads/read.ts),
    together with the properties of the batch update that the design
    document states.  The links of a lead (leads/write.ts), the field-info
    helper (leads/read.ts) and the pagination helper (utils/pagination.ts)
    follow, with what the code shows of them.

    Conventions of the embedding.
    - A JavaScript string is a [string] whose characters are UTF-16 code
      units below 256 (Latin-1); [toLowerCase], [trim] and the two regular
      expressions of the matcher are written out for that range.
    - A JavaScript number is a [number]: NaN, an infinity, an integer or a
      decimal fraction, the exact value of a binary64 (zero has no sign).
      [Number] rounds what it reads to the nearest binary64, a tie going
      to the even one, and overflows to an infinity.
    - Every [await]ed HTTP request goes through a [Transport], which
      answers the n-th request of each kind; the [World] counts the
      requests issued and records the bodies that were written. *)

From Stdlib Require Import ZArith String Ascii List Bool Lia Sorted Permutation.
From stdpp Require Import gmap strings list.
Import ListNotations.

Local Open Scope string_scope.
Local Open Scope Z_scope.

(* ================================================================== *)
(** ** Host-language primitives *)
(* ================================================================== *)

Module JS.

(** *** Numbers *)

Inductive number : Type :=
| NaN
| Infinity (negative : bool)
| Int (z : Z)
| Frac (m : Z) (e : positive).      (* m / 10^e, with 10 not dividing m *)

#[global] Instance number_eq_dec : EqDecision number.
Proof. solve_decision. Defined.

Definition isNaN (n : number) : bool :=
  match n with NaN => true | _ => false end.

(** ToBoolean on a number: NaN and zero are falsy. *)
Definition truthy (n : number) : bool :=
  match n with
  | NaN => false
  | Infinity _ => true
  | Int z => negb (z =? 0)
  | Frac m _ => negb (m =? 0)
  end.

(** Sign of [a - b] on finite numbers, by cross-multiplication. *)
Definition scaled (n : number) : option (Z * Z) :=
  match n with
  | Int z => Some (z, 1)
  | Frac m e => Some (m, 10 ^ Z.pos e)
  | _ => None
  end.

Definition compare_fin (a b : Z * Z) : comparison :=
  (fst a * snd b ?= fst b * snd a).

(** [a === b] on numbers. *)
Definition strict_eq (a b : number) : bool :=
  match a, b with
  | NaN, _ | _, NaN => false
  | Infinity x, Infinity y => Bool.eqb x y
  | Infinity _, _ | _, Infinity _ => false
  | _, _ =>
      match scaled a, scaled b with
      | Some p, Some q =>
          match compare_fin p q with Eq => true | _ => false end
      | _, _ => false
      end
  end.

(** The sign of [a - b], as a sort comparator reads it: a NaN difference
    counts as zero. *)
Definition sub_sign (a b : number) : comparison :=
  match a, b with
  | NaN, _ | _, NaN => Eq
  | Infinity x, Infinity y =>
      if Bool.eqb x y then Eq else if x then Lt else Gt
  | Infinity x, _ => if x then Lt else Gt
  | _, Infinity y => if y then Gt else Lt
  | _, _ =>
      match scaled a, scaled b with
      | Some p, Some q => compare_fin p q
      | _, _ => Eq
      end
  end.

Definition is_positive_integer (n : number) : bool :=
  match n with Int z => 0 <? z | _ => false end.

(** [m * 10^e] in normal form. *)
Fixpoint strip_zeros (fuel : nat) (m : Z) (e : Z) : number :=
  match fuel with
  | O => Int m
  | S fuel' =>
      if e <=? 0 then Int m
      else if m mod 10 =? 0 then strip_zeros fuel' (m / 10) (e - 1)
      else match e with Z.pos p => Frac m p | _ => Int m end
  end.

Definition mkdec (m : Z) (e : Z) : number :=
  if 0 <=? e then Int (m * 10 ^ e)
  else strip_zeros (S (Z.to_nat (- e))) m (- e).

(** *** Rounding to binary64 *)

(** [floor (log2 (p / q))], for positive [p] and [q]. *)
Definition floorLog2 (p q : Z) : Z :=
  let e0 := Z.log2 p - Z.log2 q in
  if (if 0 <=? e0 then q * 2 ^ e0 <=? p else q <=? p * 2 ^ (- e0))
  then e0 else e0 - 1.

(** [num / den] rounded to the nearest integer, a tie going to the even
    one. *)
Definition roundHalfEven (num den : Z) : Z :=
  let d := num / den in
  match 2 * (num mod den) ?= den with
  | Lt => d
  | Gt => d + 1
  | Eq => if Z.even d then d else d + 1
  end.

(** The binary64 value nearest to [p / q] ([0 <= p], [0 < q]), with the
    sign [neg]: 53 significant bits, exponents from -1022 (below, the
    subnormal numbers) to 1023 (above, an infinity). *)
Definition toDouble (neg : bool) (p q : Z) : number :=
  let signed (z : Z) := if neg then - z else z in
  if p =? 0 then Int 0
  else if (q =? 1) && (p <? 2 ^ 53) then Int (signed p)
  else
    let E := Z.max (floorLog2 p q) (- 1022) in
    if 1024 <=? E then Infinity neg
    else
      let k := E - 52 in
      let n := if 0 <=? k then roundHalfEven p (q * 2 ^ k)
               else roundHalfEven (p * 2 ^ (- k)) q in
      if (0 <=? k) && (2 ^ 1024 <=? n * 2 ^ k) then Infinity neg
      else if 0 <=? k then Int (signed n * 2 ^ k)
      else mkdec (signed n * 5 ^ (- k)) k.

(** The binary64 value nearest to [m * 10^e] ([0 <= m]).  The two tests
    on the size settle what lies beyond 10^310 or below 10^-330 without
    computing the power. *)
Definition decimalToDouble (neg : bool) (m e : Z) : number :=
  if m =? 0 then Int 0
  else if 310 <=? Z.log2 m / 4 + e then Infinity neg
  else if (Z.log2 m + 1) / 3 + 1 + e <=? - 330 then Int 0
  else if 0 <=? e then toDouble neg (m * 10 ^ e) 1
  else toDouble neg m (10 ^ (- e)).

(** *** Characters *)

Definition code (c : ascii) : N := N_of_ascii c.

(** WhiteSpace and LineTerminator below 256: TAB, LF, VT, FF, CR, SP and
    NBSP.  It is the class of [\s] and what [trim] removes. *)
Definition isSpace (c : ascii) : bool :=
  let n := code c in
  (((9 <=? n) && (n <=? 13)) || (n =? 32) || (n =? 160))%N.

Definition isDigit (c : ascii) : bool :=
  let n := code c in ((48 <=? n) && (n <=? 57))%N.

Definition isUpper (c : ascii) : bool :=
  let n := code c in ((65 <=? n) && (n <=? 90))%N.

Definition isLower (c : ascii) : bool :=
  let n := code c in ((97 <=? n) && (n <=? 122))%N.

(** The class [\w]: ASCII letters, digits and the underscore. *)
Definition isWord (c : ascii) : bool :=
  isUpper c || isLower c || isDigit c || (code c =? 95)%N.

(** Upper-case letters of Latin-1 with a lower-case partner 32 above. *)
Definition lowerChar (c : ascii) : ascii :=
  let n := code c in
  if (isUpper c
      || ((192 <=? n) && (n <=? 222) && negb (n =? 215)))%N
  then ascii_of_N (n + 32) else c.

(** *** Strings *)

Fixpoint toLowerCase (s : string) : string :=
  match s with
  | EmptyString => EmptyString
  | String c r => String (lowerChar c) (toLowerCase r)
  end.

Definition isEmpty (s : string) : bool :=
  match s with EmptyString => true | _ => false end.

Fixpoint trimStart (s : string) : string :=
  match s with
  | EmptyString => EmptyString
  | String c r => if isSpace c then trimStart r else s
  end.

Fixpoint trimEnd (s : string) : string :=
  match s with
  | EmptyString => EmptyString
  | String c r =>
      let r' := trimEnd r in
      if isSpace c && isEmpty r' then EmptyString else String c r'
  end.

Definition trim (s : string) : string := trimEnd (trimStart s).

Fixpoint startsWith (s p : string) : bool :=
  match p, s with
  | EmptyString, _ => true
  | String _ _, EmptyString => false
  | String a p', String b s' => Ascii.eqb a b && startsWith s' p'
  end.

(** [s.includes(t)] *)
Fixpoint includes (s t : string) : bool :=
  startsWith s t
  || match s with
     | EmptyString => false
     | String _ r => includes r t
     end.

(** [s.replace(/[^\w\s]/g, ' ')] *)
Fixpoint blankNonWord (s : string) : string :=
  match s with
  | EmptyString => EmptyString
  | String c r =>
      String (if isWord c || isSpace c then c else " "%char) (blankNonWord r)
  end.

(** [s.replace(/\s+/g, ' ')]; [inrun] tells that the previous character
    was white space. *)
Fixpoint collapseSpaces (inrun : bool) (s : string) : string :=
  match s with
  | EmptyString => EmptyString
  | String c r =>
      if isSpace c
      then (if inrun then collapseSpaces true r
            else String " "%char (collapseSpaces true r))
      else String c (collapseSpaces false r)
  end.

(** [s.split(/\s+/)]; [cur] is the piece being read. *)
Fixpoint splitSpaces (s : string) (cur : string) (inrun : bool) : list string :=
  match s with
  | EmptyString => [cur]
  | String c r =>
      if isSpace c
      then (if inrun then splitSpaces r EmptyString true
            else cur :: splitSpaces r EmptyString true)
      else splitSpaces r (cur ++ String c EmptyString) false
  end.

Definition split_ws (s : string) : list string := splitSpaces s EmptyString false.

Definition strlen (s : string) : Z := Z.of_nat (String.length s).

(** *** Number(string) *)

Definition digitVal (radix : Z) (c : ascii) : option Z :=
  let n := Z.of_N (code c) in
  let v := if isDigit c then Some (n - 48)
           else if isLower c then Some (n - 87)
           else if isUpper c then Some (n - 55)
           else None in
  match v with
  | Some d => if d <? radix then Some d else None
  | None => None
  end.

(** Leading digits of [s] in [radix]: the value accumulated on [acc],
    the number of digits read, and what follows them. *)
Fixpoint takeDigits (radix : Z) (s : string) (acc : Z) (cnt : nat)
  : Z * nat * string :=
  match s with
  | EmptyString => (acc, cnt, s)
  | String c r =>
      match digitVal radix c with
      | Some d => takeDigits radix r (acc * radix + d) (S cnt)
      | None => (acc, cnt, s)
      end
  end.

(** [0x], [0o] and [0b] literals (no sign). *)
Definition radixLiteral (s : string) : option number :=
  match s with
  | String "0"%char (String k r) =>
      let radix :=
        if (Ascii.eqb k "x" || Ascii.eqb k "X")%char then Some 16
        else if (Ascii.eqb k "o" || Ascii.eqb k "O")%char then Some 8
        else if (Ascii.eqb k "b" || Ascii.eqb k "B")%char then Some 2
        else None in
      match radix with
      | Some b =>
          match takeDigits b r 0 O with
          | (v, S _, EmptyString) => Some (toDouble false v 1)
          | _ => Some NaN
          end
      | None => None
      end
  | _ => None
  end.

Definition takeSign (s : string) : bool * string :=
  match s with
  | String "-"%char r => (true, r)
  | String "+"%char r => (false, r)
  | _ => (false, s)
  end.

(** The exponent part, or nothing; [None] when what is left is not one. *)
Definition exponentPart (s : string) : option Z :=
  match s with
  | EmptyString => Some 0
  | String k r =>
      if (Ascii.eqb k "e" || Ascii.eqb k "E")%char then
        let '(neg, r') := takeSign r in
        match takeDigits 10 r' 0 O with
        | (v, S _, EmptyString) => Some (if neg then - v else v)
        | _ => None
        end
      else None
  end.

(** StrDecimalLiteral without its sign. *)
Definition unsignedDecimal (s : string) : option (Z * Z) :=
  let '(ip, n1, r1) := takeDigits 10 s 0 O in
  let '(mant, n2, r2) :=
    match r1 with
    | String "."%char r => takeDigits 10 r ip O
    | _ => (ip, O, r1)
    end in
  match (n1 + n2)%nat with
  | O => None
  | S _ =>
      match exponentPart r2 with
      | Some ex => Some (mant, ex - Z.of_nat n2)
      | None => None
      end
  end.

Definition decimalLiteral (s : string) : number :=
  let '(neg, r) := takeSign s in
  if String.eqb r "Infinity" then Infinity neg
  else match unsignedDecimal r with
       | Some (m, e) => decimalToDouble neg m e
       | None => NaN
       end.

(** [Number(s)] for a string [s] (StringToNumber). *)
Definition Number (s : string) : number :=
  let t := trim s in
  if isEmpty t then Int 0
  else match radixLiteral t with
       | Some n => n
       | None => decimalLiteral t
       end.

End JS.

Import JS.

(* ================================================================== *)
(** ** Data model *)
(* ================================================================== *)

(** One value of a custom field: [{ value, enum_code?, enum_id? }].  The
    snapshot of a lead and the body of an update share the shape. *)
Record FieldValue : Type := mkFieldValue {
  value : string;
  enum_code : option string;
  enum_id : option number;
}.

(** An entry of a lead's [custom_fields_values] (leadCustomFieldValueSchema):
    a field that holds a value on the lead. *)
Record CustomField : Type := mkCustomField {
  field_id : number;
  field_name : option string;
  field_code : option string;
  field_type : option string;
  values : list FieldValue;
}.

(** A lead, as far as the custom-field code reads it (KommoLead). *)
Record Lead : Type := mkLead {
  lead_id : number;
  custom_fields_values : option (list CustomField);
}.

(** An enum of a field definition: [{ id, value, sort? }] (the colour is
    carried along by the source and never read). *)
Record EnumDef : Type := mkEnumDef {
  enum_def_id : number;
  enum_def_value : string;
  enum_def_sort : option number;
}.

(** An entry of [GET /leads/custom_fields]. *)
Record FieldDef : Type := mkFieldDef {
  def_id : number;
  def_name : string;
  def_code : option string;
  def_type : string;
  def_enums : option (list EnumDef);
}.

(** An option as [getSelectFieldOptions] returns it. *)
Record SelectOption : Type := mkSelectOption {
  opt_value : string;
  opt_enum_id : number;
  opt_sort : option number;
}.

(** An element of the [custom_fields_values] array of the update body. *)
Record PayloadEntry : Type := mkPayloadEntry {
  cfv_field_id : number;
  cfv_values : list FieldValue;
}.

(** The texts the code builds, kept as the template and what is
    interpolated into it. *)
Inductive Message : Type :=
| LeadNotFound (leadId : number)
    (* `Lead with ID ${leadId} not found` *)
| GetLeadError (message : string)
    (* `Get lead error: ${message}` *)
| GetLeadCustomFieldsError
    (* `Get lead custom fields error: ${message}`, for what getLead throws *)
| FailedToGetCustomFields
    (* 'Failed to get custom fields' *)
| CustomFieldNotFound (searchTerm : string)
    (* `Custom field not found: ${searchTerm}. Note: ...` *)
| InvalidMetadataFormat
    (* 'Invalid response format from custom fields endpoint: ...' *)
| FailedToGetMetadata
    (* 'Failed to get custom fields metadata' *)
| MetadataError (message : string)
    (* `Get custom fields metadata error: ${message}` *)
| FieldNotInMetadata (fieldId : number)
    (* `Field with ID ${fieldId} not found in custom fields metadata` *)
| NotSelectField (name type : string)
    (* `Field "${name}" is not a select field (type: ${type})` *)
| UpdateNoLead
    (* 'Failed to update lead: No lead returned in response' *)
| UpdateLeadError (message : string)
    (* `Update lead error: ${message}` *)
| FieldNotFound (fieldKey : string)
    (* `Field not found: ${fieldKey}. Field may not exist or ...` *)
| InvalidSelectValue (raw : string) (label : string + number)
                     (suggestions : string) (more : bool)
    (* `Value "${value}" is not valid for select field "${label}".
        Valid options include: ${suggestions}${more ? '...' : ''}` *)
| NoFieldsMapped.
    (* 'No fields could be mapped to field IDs' *)

(** An element of the [errors] array: [{ field, error }]. *)
Record FieldError : Type := mkFieldError {
  field : string;
  error_text : Message;
}.

(** *** Results of the operations *)

Record GetLeadResult : Type := mkGetLeadResult {
  gl_success : bool;
  gl_lead : option Lead;
  gl_error : option Message;
}.

Record CustomFieldsResult : Type := mkCustomFieldsResult {
  cf_success : bool;
  customFields : option (list CustomField);
  cf_error : option Message;
}.

Record SearchResult : Type := mkSearchResult {
  sr_success : bool;
  sr_field : option CustomField;
  sr_error : option Message;
}.

Record MetadataResult : Type := mkMetadataResult {
  md_success : bool;
  md_fields : option (list FieldDef);
  md_error : option Message;
}.

Record OptionsResult : Type := mkOptionsResult {
  or_success : bool;
  or_fieldId : number;
  fieldName : option string;
  fieldCode : option string;
  fieldType : option string;
  options : option (list SelectOption);
  or_error : option Message;
}.

Record LeadWriteResult : Type := mkLeadWriteResult {
  lw_success : bool;
  lw_lead : option Lead;
  lw_error : option Message;
}.

(** What [updateLeadCustomFields] resolves to. *)
Record Outcome : Type := mkOutcome {
  success : bool;
  updatedFields : option nat;
  errors : option (list FieldError);
  error : option Message;
}.

(* ================================================================== *)
(** ** The transport and the request monad *)
(* ================================================================== *)

(** What [kommoRequest] does with one request: it throws (a KommoAPIError
    carries a status code) or it returns the parsed body, [null] on 204. *)
Inductive Reply (A : Type) : Type :=
| Throws (statusCode : option Z) (message : string)
| Returns (body : option A).

Arguments Throws {A} statusCode message.
Arguments Returns {A} body.

(** The CRM behind [kommoRequest].  Two requests of one batch need not get
    the same answer, so each kind of request is answered by its rank.
    [localeCompare] is the host's collation. *)
Record Transport : Type := mkTransport {
  get_lead : nat -> Reply Lead;
      (* GET /leads/{leadId} *)
  get_custom_fields : nat -> Reply (list FieldDef);
      (* GET /leads/custom_fields; the body is _embedded.custom_fields *)
  patch_lead : nat -> list PayloadEntry -> Reply Lead;
      (* PATCH /leads; the body is _embedded.leads[0] *)
  localeCompare : string -> string -> comparison;
}.

(** The requests issued so far. *)
Record World : Type := mkWorld {
  lead_gets : nat;
  catalog_gets : nat;
  patches : list (list PayloadEntry);
}.

Definition world0 : World := mkWorld 0 0 [].

Definition M (A : Type) : Type := World -> A * World.

Definition ret {A} (a : A) : M A := fun w => (a, w).

Definition bind {A B} (c : M A) (k : A -> M B) : M B :=
  fun w => let '(a, w') := c w in k a w'.

Notation "'let*' x ':=' c 'in' k" := (bind c (fun x => k))
  (at level 10, x pattern, c at level 100, k at level 200).

(* ================================================================== *)
(** ** The Option Matcher *)
(* ================================================================== *)

(** [const normalize = (s) =>
      s.toLowerCase().replace(/[^\w\s]/g, ' ').replace(/\s+/g, ' ').trim()] *)
Definition normalize (s : string) : string :=
  trim (collapseSpaces false (blankNonWord (toLowerCase s))).

(** The rules of the predicate handed to [options.find], one by one. *)
Section Rules.
Variable raw : string.

(* const searchValue = String(value).toLowerCase().trim() *)
Definition searchValue : string := trim (toLowerCase raw).
Definition normalizedSearch : string := normalize searchValue.

Definition optValue (opt : SelectOption) : string :=
  trim (toLowerCase (opt_value opt)).
Definition normalizedOpt (opt : SelectOption) : string :=
  normalize (optValue opt).

(* optValue === searchValue || normalizedOpt === normalizedSearch *)
Definition exactRule (opt : SelectOption) : bool :=
  String.eqb (optValue opt) searchValue
  || String.eqb (normalizedOpt opt) normalizedSearch.

(* optValue.includes(searchValue) || searchValue.includes(optValue) *)
Definition containsRule (opt : SelectOption) : bool :=
  includes (optValue opt) searchValue || includes searchValue (optValue opt).

(* normalizedOpt.includes(normalizedSearch)
   || normalizedSearch.includes(normalizedOpt) *)
Definition normalizedContainsRule (opt : SelectOption) : bool :=
  includes (normalizedOpt opt) normalizedSearch
  || includes normalizedSearch (normalizedOpt opt).

(* normalizedSearch.split(/\s+/).filter(w => w.length > 2) *)
Definition searchWords : list string :=
  List.filter (fun w => 2 <? strlen w) (split_ws normalizedSearch).

(* searchWords.length > 0
   && searchWords.every(word => normalizedOpt.includes(word)) *)
Definition wordRule (opt : SelectOption) : bool :=
  negb (Nat.eqb (List.length searchWords) 0)
  && forallb (fun word => includes (normalizedOpt opt) word) searchWords.

(** The callback of [find]: the four [if]s in the order of the source. *)
Definition optionMatches (opt : SelectOption) : bool :=
  if exactRule opt then true
  else if containsRule opt then true
  else if normalizedContainsRule opt then true
  else if wordRule opt then true
  else false.

(** [optionsResult.options.find(opt => ...)] *)
Definition matchOption (opts : list SelectOption) : option SelectOption :=
  List.find optionMatches opts.
End Rules.

(** [options.slice(0, 5).map(opt => opt.value).join(', ')] *)
Fixpoint join (sep : string) (l : list string) : string :=
  match l with
  | [] => ""
  | [x] => x
  | x :: r => x ++ sep ++ join sep r
  end.

Definition suggestions (opts : list SelectOption) : string :=
  join ", " (List.map opt_value (firstn 5 opts)).

(* ================================================================== *)
(** ** Read operations (leads/read.ts) *)
(* ================================================================== *)

(** [Array.prototype.sort] with a comparator: stable, written as an
    insertion sort.  (For a comparator that is no ordering the language
    leaves the order to the engine; what is proved about the sorted list
    below is only that it is a permutation.) *)
Section Sort.
Context {A : Type} (cmp : A -> A -> comparison).

Fixpoint insert_sorted (x : A) (l : list A) : list A :=
  match l with
  | [] => [x]
  | y :: r =>
      match cmp x y with
      | Gt => y :: insert_sorted x r
      | _ => x :: l
      end
  end.

Definition sort (l : list A) : list A := List.fold_right insert_sorted [] l.
End Sort.

(** ToBoolean of an optional string: [undefined] and [''] are falsy. *)
Definition nonEmpty (s : option string) : bool :=
  match s with Some t => negb (isEmpty t) | None => false end.

Section Operations.
Variable net : Transport.
Variable leadId : number.

Definition is404 (statusCode : option Z) : bool :=
  match statusCode with Some c => c =? 404 | None => false end.

(** [getLeadParamsSchema]: the lead id is a positive integer. *)
Definition validLeadId : bool := is_positive_integer leadId.

(** [getLead({ leadId }, config)], once [getLeadParamsSchema.parse] has
    accepted the lead id. *)
Definition getLead : M GetLeadResult := fun w =>
  let w' := mkWorld (S (lead_gets w)) (catalog_gets w) (patches w) in
  match get_lead net (lead_gets w) with
  | Returns None => (mkGetLeadResult false None (Some (LeadNotFound leadId)), w')
  | Returns (Some lead) => (mkGetLeadResult true (Some lead) None, w')
  | Throws sc msg =>
      if is404 sc
      then (mkGetLeadResult false None (Some (LeadNotFound leadId)), w')
      else (mkGetLeadResult false None (Some (GetLeadError msg)), w')
  end.

(** [getLeadCustomFields(leadId, config)].  On a lead id that the schema
    rejects [getLead] throws before any request, and the [catch] here
    makes a failure of it. *)
Definition getLeadCustomFields : M CustomFieldsResult :=
  if negb validLeadId
  then ret (mkCustomFieldsResult false None (Some GetLeadCustomFieldsError))
  else
  let* result := getLead in
  match gl_success result, gl_lead result with
  | true, Some lead =>
      (* result.lead.custom_fields_values ?? [] *)
      let cfs := match custom_fields_values lead with
                 | Some l => l
                 | None => []
                 end in
      ret (mkCustomFieldsResult true (Some cfs) None)
  | _, _ =>
      ret (mkCustomFieldsResult false None
             (Some (match gl_error result with
                    | Some e => e
                    | None => LeadNotFound leadId
                    end)))
  end.

(* f.field_name?.toLowerCase() || '' *)
Definition lowerOrEmpty (s : option string) : string :=
  match s with Some t => toLowerCase t | None => "" end.

(** [searchLeadCustomField(leadId, searchTerm, config)] for a string
    [searchTerm] (the keys of [Object.entries] are strings). *)
Definition searchLeadCustomField (searchTerm : string) : M SearchResult :=
  let* result := getLeadCustomFields in
  match cf_success result, customFields result with
  | true, Some cfs =>
      let byId :=
        if negb (isNaN (Number searchTerm))
        then List.find (fun f => strict_eq (field_id f) (Number searchTerm)) cfs
        else None in
      match byId with
      | Some f => ret (mkSearchResult true (Some f) None)
      | None =>
          let searchName := toLowerCase searchTerm in
          match List.find
                  (fun f => includes (lowerOrEmpty (field_name f)) searchName
                            || includes (lowerOrEmpty (field_code f)) searchName)
                  cfs with
          | Some f => ret (mkSearchResult true (Some f) None)
          | None =>
              ret (mkSearchResult false None
                     (Some (CustomFieldNotFound searchTerm)))
          end
      end
  | _, _ =>
      ret (mkSearchResult false None
             (Some (match cf_error result with
                    | Some e => e
                    | None => FailedToGetCustomFields
                    end)))
  end.

(* (f) => f.enums && Array.isArray(f.enums) && f.enums.length > 0 *)
Definition hasEnums (f : FieldDef) : bool :=
  match def_enums f with
  | Some (_ :: _) => true
  | _ => false
  end.

(** [getLeadCustomFieldsMetadata(config)] *)
Definition getLeadCustomFieldsMetadata : M MetadataResult := fun w =>
  let w' := mkWorld (lead_gets w) (S (catalog_gets w)) (patches w) in
  match get_custom_fields net (catalog_gets w) with
  | Returns (Some fields) =>
      (mkMetadataResult true (Some (List.filter hasEnums fields)) None, w')
  | Returns None =>
      (mkMetadataResult false None (Some InvalidMetadataFormat), w')
  | Throws _ msg =>
      (mkMetadataResult false None (Some (MetadataError msg)), w')
  end.

(* (a, b) => a.sort !== undefined && b.sort !== undefined
               ? a.sort - b.sort : a.value.localeCompare(b.value) *)
Definition compareOptions (a b : SelectOption) : comparison :=
  match opt_sort a, opt_sort b with
  | Some x, Some y => sub_sign x y
  | _, _ => localeCompare net (opt_value a) (opt_value b)
  end.

Definition optionOfEnum (e : EnumDef) : SelectOption :=
  mkSelectOption (enum_def_value e) (enum_def_id e) (enum_def_sort e).

(** [getSelectFieldOptions(fieldId, config)] *)
Definition getSelectFieldOptions (fieldId : number) : M OptionsResult :=
  let* metadataResult := getLeadCustomFieldsMetadata in
  match md_success metadataResult, md_fields metadataResult with
  | true, Some fields =>
      match List.find (fun f => strict_eq (def_id f) fieldId) fields with
      | None =>
          ret (mkOptionsResult false fieldId None None None None
                 (Some (FieldNotInMetadata fieldId)))
      | Some f =>
          if negb (String.eqb (def_type f) "select")
             && negb (String.eqb (def_type f) "multiselect")
          then ret (mkOptionsResult false fieldId (Some (def_name f))
                      (def_code f) (Some (def_type f)) None
                      (Some (NotSelectField (def_name f) (def_type f))))
          else
            let opts :=
              sort compareOptions
                (List.map optionOfEnum
                   (match def_enums f with Some l => l | None => [] end)) in
            ret (mkOptionsResult true fieldId (Some (def_name f))
                   (def_code f) (Some (def_type f))
                   (match opts with [] => None | _ => Some opts end)
                   None)
      end
  | _, _ =>
      ret (mkOptionsResult false fieldId None None None None
             (Some (match md_error metadataResult with
                    | Some e => e
                    | None => FailedToGetMetadata
                    end)))
  end.

(* ================================================================ *)
(** ** Write operations (leads/write.ts) *)
(* ================================================================ *)

(** [updateLead(leadId, { custom_fields_values }, config)].  The body
    built by the caller below has the shape of [updateLeadDataSchema],
    whose [parse] is left out. *)
Definition updateLead (data : list PayloadEntry) : M LeadWriteResult := fun w =>
  let w' := mkWorld (lead_gets w) (catalog_gets w) (patches w ++ [data]) in
  match patch_lead net (List.length (patches w)) data with
  | Returns (Some lead) => (mkLeadWriteResult true (Some lead) None, w')
  | Returns None => (mkLeadWriteResult false None (Some UpdateNoLead), w')
  | Throws sc msg =>
      if is404 sc
      then (mkLeadWriteResult false None (Some (LeadNotFound leadId)), w')
      else (mkLeadWriteResult false None (Some (UpdateLeadError msg)), w')
  end.

(** The body of the [forEach] that fills [nameToIdMap]. *)
Definition addNames (m : gmap string number) (f : CustomField)
  : gmap string number :=
  let m1 := match field_name f with
            | Some n => if nonEmpty (Some n)
                        then <[toLowerCase n := field_id f]> m else m
            | None => m
            end in
  match field_code f with
  | Some c => if nonEmpty (Some c)
              then <[toLowerCase c := field_id f]> m1 else m1
  | None => m1
  end.

Definition buildNameToIdMap (existingFields : CustomFieldsResult)
  : gmap string number :=
  match cf_success existingFields, customFields existingFields with
  | true, Some cfs => List.fold_left addNames cfs ∅
  | _, _ => ∅
  end.

(** The two arrays the loop pushes to. *)
Record Acc : Type := mkAcc {
  customFieldsValues : list PayloadEntry;
  acc_errors : list FieldError;
}.

Definition pushValue (acc : Acc) (e : PayloadEntry) : Acc :=
  mkAcc (customFieldsValues acc ++ [e]) (acc_errors acc).

Definition pushError (acc : Acc) (e : FieldError) : Acc :=
  mkAcc (customFieldsValues acc) (acc_errors acc ++ [e]).

(** The Field Identifier Resolver: the first [if]/[else] of the loop
    body, which leaves [fieldId] a number or [undefined]. *)
Definition resolveFieldId (nameToIdMap : gmap string number)
           (fieldKey : string) : M (option number) :=
  if negb (isNaN (Number fieldKey)) then ret (Some (Number fieldKey))
  else
    let* searchResult := searchLeadCustomField fieldKey in
    match sr_success searchResult, sr_field searchResult with
    | true, Some f => ret (Some (field_id f))
    | _, _ => ret (nameToIdMap !! toLowerCase fieldKey)
    end.

(* optionsResult.fieldName || fieldId *)
Definition fieldLabel (r : OptionsResult) (fieldId : number)
  : string + number :=
  match fieldName r with
  | Some n => if nonEmpty (Some n) then inl n else inr fieldId
  | None => inr fieldId
  end.

(** What the loop does once it holds a field id: look the options up,
    match the value, push a payload entry or an error.  The source has
    this block twice, for [fieldId] and for [numericKey]. *)
Definition applyValue (fieldKey raw : string) (fieldId : number)
           (acc : Acc) : M Acc :=
  let* optionsResult := getSelectFieldOptions fieldId in
  match or_success optionsResult, options optionsResult with
  | true, Some ((_ :: _) as opts) =>
      match matchOption raw opts with
      | Some matchedOption =>
          ret (pushValue acc
                 (mkPayloadEntry fieldId
                    [mkFieldValue (opt_value matchedOption) None
                       (Some (opt_enum_id matchedOption))]))
      | None =>
          ret (pushError acc
                 (mkFieldError fieldKey
                    (InvalidSelectValue raw (fieldLabel optionsResult fieldId)
                       (suggestions opts)
                       (Nat.ltb 5 (List.length opts)))))
      end
  | _, _ =>
      ret (pushValue acc (mkPayloadEntry fieldId [mkFieldValue raw None None]))
  end.

(** The [else] of [if (fieldId)]. *)
Definition numericFallback (fieldKey raw : string) (acc : Acc) : M Acc :=
  let numericKey := Number fieldKey in
  if negb (isNaN numericKey) then applyValue fieldKey raw numericKey acc
  else ret (pushError acc (mkFieldError fieldKey (FieldNotFound fieldKey))).

(** One turn of [for (const [fieldKey, value] of Object.entries(fields))]. *)
Definition processEntry (nameToIdMap : gmap string number)
           (entry : string * string) (acc : Acc) : M Acc :=
  let* fieldId := resolveFieldId nameToIdMap (fst entry) in
  match fieldId with
  | Some fid =>
      if truthy fid then applyValue (fst entry) (snd entry) fid acc
      else numericFallback (fst entry) (snd entry) acc
  | None => numericFallback (fst entry) (snd entry) acc
  end.

Fixpoint forEntries (nameToIdMap : gmap string number)
         (entries : list (string * string)) (acc : Acc) : M Acc :=
  match entries with
  | [] => ret acc
  | entry :: rest =>
      let* acc' := processEntry nameToIdMap entry acc in
      forEntries nameToIdMap rest acc'
  end.

(* errors.length > 0 ? errors : undefined *)
Definition errorsOrUndefined (errs : list FieldError)
  : option (list FieldError) :=
  match errs with [] => None | _ => Some errs end.

(** [updateLeadCustomFields(leadId, fields, config)].  [fields] is the
    object as [Object.entries] lists it: its keys are strings, pairwise
    distinct.  Nothing called here throws, so the outer [catch] is
    never entered. *)
Definition updateLeadCustomFields (fields : list (string * string))
  : M Outcome :=
  let* existingFields := getLeadCustomFields in
  let nameToIdMap := buildNameToIdMap existingFields in
  let* acc := forEntries nameToIdMap fields (mkAcc [] []) in
  match customFieldsValues acc with
  | _ :: _ =>
      let* updateResult := updateLead (customFieldsValues acc) in
      if negb (lw_success updateResult)
      then ret (mkOutcome false (Some O)
                  (errorsOrUndefined (acc_errors acc))
                  (lw_error updateResult))
      else ret (mkOutcome true
                  (Some (List.length (customFieldsValues acc)))
                  (errorsOrUndefined (acc_errors acc))
                  None)
  | [] =>
      ret (mkOutcome false (Some O) (Some (acc_errors acc))
             (Some NoFieldsMapped))
  end.

(** What the tool handler answers (mcp/handlers):
    [{ content: [`Error: ${result.error}`], isError: true }] or the
    result as JSON. *)
Inductive ToolResponse : Type :=
| ToolError (text : option Message)
| ToolOk (result : Outcome).

(** [handleUpdateLeadCustomFields(args, config)] *)
Definition handleUpdateLeadCustomFields (fields : list (string * string))
  : M ToolResponse :=
  let* result := updateLeadCustomFields fields in
  if negb (success result) then ret (ToolError (error result))
  else ret (ToolOk result).
End Operations.


(* ================================================================== *)
(** ** Scenarios *)
(* ================================================================== *)

(** A select field whose first option contains the text of the second. *)
Definition statusField : FieldDef :=
  mkFieldDef (Int 700) "Status" None "select"
    (Some [mkEnumDef (Int 1) "Not Active" (Some (Int 10));
           mkEnumDef (Int 2) "Active" (Some (Int 20))]).

Definition cityField : FieldDef :=
  mkFieldDef (Int 501) "City" None "select"
    (Some [mkEnumDef (Int 31) "Bogota" (Some (Int 1));
           mkEnumDef (Int 32) "Medellin" (Some (Int 2));
           mkEnumDef (Int 33) "Cali" (Some (Int 3))]).

Definition catalog : list FieldDef := [cityField; statusField].

(** A lead on which "City" and "Nombre" hold a value. *)
Definition lead42 : Lead :=
  mkLead (Int 42)
    (Some [mkCustomField (Int 501) (Some "City") None (Some "select")
             [mkFieldValue "Cali" None (Some (Int 33))];
           mkCustomField (Int 610) (Some "Nombre") (Some "NAME") (Some "text")
             [mkFieldValue "Ana" None None]]).

(** Collation by code unit, enough for the scenarios. *)
Definition ordinalCompare (a b : string) : comparison := String.compare a b.

(** A CRM that answers every request the same way and accepts the write. *)
Definition steadyNet : Transport :=
  mkTransport (fun _ => Returns (Some lead42))
              (fun _ => Returns (Some catalog))
              (fun _ _ => Returns (Some lead42))
              ordinalCompare.

(** The same CRM, refusing the write. *)
Definition refusingNet : Transport :=
  mkTransport (fun _ => Returns (Some lead42))
              (fun _ => Returns (Some catalog))
              (fun _ _ => Throws (Some 400) "NotSupportedChoice")
              ordinalCompare.

(** The catalog endpoint is down. *)
Definition noCatalogNet : Transport :=
  mkTransport (fun _ => Returns (Some lead42))
              (fun _ => Throws (Some 503) "Service Unavailable")
              (fun _ _ => Returns (Some lead42))
              ordinalCompare.

(** The first read of the lead fails, the later ones succeed. *)
Definition flakyNet : Transport :=
  mkTransport (fun n => match n with
                        | O => Throws None "fetch failed"
                        | S _ => Returns (Some lead42)
                        end)
              (fun _ => Returns (Some catalog))
              (fun _ _ => Returns (Some lead42))
              ordinalCompare.

(** No read of the lead succeeds. *)
Definition noLeadNet : Transport :=
  mkTransport (fun _ => Throws None "fetch failed")
              (fun _ => Returns (Some catalog))
              (fun _ _ => Returns (Some lead42))
              ordinalCompare.


(** Options of a status field, as [getSelectFieldOptions] lists them. *)
Definition notActive : SelectOption :=
  mkSelectOption "Not Active" (Int 1) (Some (Int 10)).

Definition active : SelectOption :=
  mkSelectOption "Active" (Int 2) (Some (Int 20)).

Definition pending : SelectOption :=
  mkSelectOption "Pending" (Int 3) (Some (Int 5)).

(** A lead with a field whose name and code contain the numeral 2. *)
Definition lead7 : Lead :=
  mkLead (Int 7)
    (Some [mkCustomField (Int 900) (Some "Line 2") (Some "LINE_2") (Some "text")
             [mkFieldValue "x" None None]]).

Definition numeralNet : Transport :=
  mkTransport (fun _ => Returns (Some lead7))
              (fun _ => Returns (Some catalog))
              (fun _ _ => Returns (Some lead7))
              ordinalCompare.

(* ================================================================== *)
(** ** Vocabulary of the statements *)
(* ================================================================== *)

(** The resolution phase of [updateLeadCustomFields]: everything before
    [if (customFieldsValues.length > 0)]. *)
Definition assemble (net : Transport) (leadId : number)
           (fields : list (string * string)) : M Acc :=
  let* existingFields := getLeadCustomFields net leadId in
  forEntries net leadId (buildNameToIdMap existingFields) fields (mkAcc [] []).

(** [updatedFields] and [errors.length] of an outcome, absent fields
    counting for nothing. *)
Definition resolvedCount (out : Outcome) : nat :=
  match updatedFields out with Some n => n | None => O end.

Definition errorCount (out : Outcome) : nat :=
  match errors out with Some l => List.length l | None => O end.

Definition isNotFound (e : FieldError) : bool :=
  match error_text e with FieldNotFound _ => true | _ => false end.

Definition notFoundCount (l : list FieldError) : nat :=
  List.length (List.filter isNotFound l).

Definition notFoundErrors (out : Outcome) : nat :=
  match errors out with Some l => notFoundCount l | None => O end.

(** A reply that carries no lead. *)
Definition leadFetchFails (r : Reply Lead) : Prop :=
  match r with Returns (Some _) => False | _ => True end.

(** The ids the CRM reports for the fields of the lead are positive
    integers. *)
Definition snapshotIdsPositive (net : Transport) : Prop :=
  forall n lead cfs f,
    get_lead net n = Returns (Some lead) ->
    custom_fields_values lead = Some cfs ->
    In f cfs ->
    is_positive_integer (field_id f) = true.

(** The fields a successful read of the lead lists. *)
Definition listedAt (net : Transport) (n : nat) (f : CustomField) : Prop :=
  exists lead cfs,
    get_lead net n = Returns (Some lead)
    /\ custom_fields_values lead = Some cfs
    /\ In f cfs.

(** Every field id of the payload built so far satisfies [P]. *)
Definition idsHold (P : number -> Prop) (acc : Acc) : Prop :=
  Forall (fun e => P (cfv_field_id e)) (customFieldsValues acc).

(** One turn of the loop adds one element to one of the two arrays. *)
Inductive Pushed (acc : Acc) : Acc -> Prop :=
| PushedValue (e : PayloadEntry) : Pushed acc (pushValue acc e)
| PushedError (e : FieldError) : Pushed acc (pushError acc e).

Definition tickLead (w : World) : World :=
  mkWorld (S (lead_gets w)) (catalog_gets w) (patches w).

Definition tickCatalog (w : World) : World :=
  mkWorld (lead_gets w) (S (catalog_gets w)) (patches w).

(** The world after [getLeadCustomFields]: one read of the lead, when the
    lead id is one [getLead] accepts. *)
Definition leadRead (leadId : number) (w : World) : World :=
  if is_positive_integer leadId then tickLead w else w.

(* ================================================================== *)
(** ** Vocabulary for the properties of the helpers *)
(* ================================================================== *)

(** The test of [searchLeadCustomField] on one field of the snapshot: by
    id when the term is a number, by name or code otherwise. *)
Definition idMatches (searchTerm : string) (f : CustomField) : bool :=
  negb (isNaN (Number searchTerm))
  && strict_eq (field_id f) (Number searchTerm).

Definition textMatches (searchTerm : string) (f : CustomField) : bool :=
  includes (lowerOrEmpty (field_name f)) (toLowerCase searchTerm)
  || includes (lowerOrEmpty (field_code f)) (toLowerCase searchTerm).

(** The keys under which the [forEach] files a field in [nameToIdMap]. *)
Definition filedUnder (k : string) (f : CustomField) : bool :=
  match field_name f with
  | Some n => nonEmpty (Some n) && String.eqb (toLowerCase n) k
  | None => false
  end
  || match field_code f with
     | Some c => nonEmpty (Some c) && String.eqb (toLowerCase c) k
     | None => false
     end.

(** Two consecutive options are in the order of their sort numbers. *)
Definition sortOrdered (a b : SelectOption) : Prop :=
  match opt_sort a, opt_sort b with
  | Some x, Some y => sub_sign x y <> Gt
  | _, _ => True
  end.

(** The same CRM, answering the reads of the lead in another way. *)
Definition withLeadReplies (g : nat -> Reply Lead) (net : Transport)
  : Transport :=
  mkTransport g (get_custom_fields net) (patch_lead net) (localeCompare net).

Definition isTextKey (entry : string * string) : bool :=
  isNaN (Number (fst entry)).

(** Whether a string begins with white space. *)
Definition headIsSpace (s : string) : bool :=
  match s with String c _ => isSpace c | EmptyString => false end.

(* ================================================================== *)
(** ** Further read operations (leads/read.ts) *)
(* ================================================================== *)

(** `Field ${fieldId} not found in lead. Field may exist but has no
     value ...` *)
Inductive InfoError : Type :=
| FieldNotInLead (fieldId : number).

Record FieldInfoResult : Type := mkFieldInfoResult {
  fi_success : bool;
  fi_field : option CustomField;
  currentValue : option string;
  fi_error : option InfoError;
}.

(** [getLeadCustomFieldInfo(leadId, fieldId, config)] *)
Definition getLeadCustomFieldInfo (net : Transport) (leadId fieldId : number)
  : M FieldInfoResult :=
  let* existingFields := getLeadCustomFields net leadId in
  let notFound :=
    mkFieldInfoResult false None None (Some (FieldNotInLead fieldId)) in
  match cf_success existingFields, customFields existingFields with
  | true, Some cfs =>
      match List.find (fun f => strict_eq (field_id f) fieldId) cfs with
      | Some existingField =>
          ret (mkFieldInfoResult true (Some existingField)
                 (* existingField.values[0]?.value *)
                 (match values existingField with
                  | v :: _ => Some (value v)
                  | [] => None
                  end)
                 None)
      | None => ret notFound
      end
  | _, _ => ret notFound
  end.

(* ================================================================== *)
(** ** Links of a lead (leads/write.ts) *)
(* ================================================================== *)

Module Links.

(** An element of [_embedded.links]. *)
Record Link : Type := mkLink {
  to_entity_id : number;
  to_entity_type : string;
}.

(** [metadata: { quantity, catalog_id }] of a product link. *)
Record Metadata : Type := mkMetadata {
  quantity : number;
  catalog_id : number;
}.

(** One link object of a request body. *)
Record LinkRequest : Type := mkLinkRequest {
  target : Link;
  metadata : option Metadata;
}.

(** The body of a POST: one object, or an array of them. *)
Inductive Body : Type :=
| OneObject (r : LinkRequest)
| ArrayOf (l : list LinkRequest).

(** The three requests on the links of one lead, answered by rank. *)
Record Transport : Type := mkTransport {
  get_links : nat -> Reply (list Link);
      (* GET /leads/{leadId}/links; the body is _embedded.links *)
  post_link : nat -> Body -> Reply unit;
      (* POST /leads/{leadId}/link *)
  post_unlink : nat -> Body -> Reply unit;
      (* POST /leads/{leadId}/unlink *)
}.

Record World : Type := mkWorld {
  links_gets : nat;
  link_posts : list Body;
  unlink_posts : list Body;
}.

Definition world0 : World := mkWorld 0 [] [].

(** The texts of the three [catch] blocks. *)
Inductive LinkError : Type :=
| LinkLeadToContactError (message : string)
    (* `Link lead to contact error: ${message}` *)
| LinkProductToLeadError (message : string)
    (* `Link product to lead error: ${message}` *)
| UnlinkProductError (message : string).
    (* `Unlink product from lead error: ${message}` *)

(** [{ success, error? }] *)
Record LinkResult : Type := mkLinkResult {
  success : bool;
  error : option LinkError;
}.

Definition afterGet (w : World) : World :=
  mkWorld (S (links_gets w)) (link_posts w) (unlink_posts w).

Definition afterLink (w : World) (b : Body) : World :=
  mkWorld (links_gets w) (link_posts w ++ [b]) (unlink_posts w).

Definition afterUnlink (w : World) (b : Body) : World :=
  mkWorld (links_gets w) (link_posts w) (unlink_posts w ++ [b]).

(* existingLinks.some(link => link.to_entity_id === id
                              && link.to_entity_type === type) *)
Definition isLinked (id : number) (type : string) (existingLinks : list Link)
  : bool :=
  existsb (fun link => strict_eq (to_entity_id link) id
                       && String.eqb (to_entity_type link) type)
    existingLinks.

Section Operations.
Variable net : Transport.

(** [linkLeadToContact(leadId, contactId, config)] *)
Definition linkLeadToContact (contactId : number) (w : World)
  : LinkResult * World :=
  match get_links net (links_gets w) with
  | Throws _ msg =>
      (mkLinkResult false (Some (LinkLeadToContactError msg)), afterGet w)
  | Returns linksResponse =>
      (* linksResponse?._embedded?.links ?? [] *)
      let existingLinks :=
        match linksResponse with Some l => l | None => [] end in
      if isLinked contactId "contacts" existingLinks
      then (mkLinkResult true None, afterGet w)
      else
        let body := OneObject (mkLinkRequest (mkLink contactId "contacts") None) in
        match post_link net (List.length (link_posts w)) body with
        | Throws _ msg =>
            (mkLinkResult false (Some (LinkLeadToContactError msg)),
             afterLink (afterGet w) body)
        | Returns _ => (mkLinkResult true None, afterLink (afterGet w) body)
        end
  end.

(** [linkProductToLead(leadId, productElementId, catalogId, quantity,
    config)]; an absent [quantity] is 1. *)
Definition linkProductToLead (productElementId catalogId : number)
           (quantityArg : option number) (w : World) : LinkResult * World :=
  let quantity := match quantityArg with Some q => q | None => Int 1 end in
  match get_links net (links_gets w) with
  | Throws _ msg =>
      (mkLinkResult false (Some (LinkProductToLeadError msg)), afterGet w)
  | Returns linksResponse =>
      let existingLinks :=
        match linksResponse with Some l => l | None => [] end in
      if isLinked productElementId "catalog_elements" existingLinks
      then (mkLinkResult true None, afterGet w)
      else
        let body :=
          ArrayOf [mkLinkRequest (mkLink productElementId "catalog_elements")
                     (Some (mkMetadata quantity catalogId))] in
        match post_link net (List.length (link_posts w)) body with
        | Throws _ msg =>
            (mkLinkResult false (Some (LinkProductToLeadError msg)),
             afterLink (afterGet w) body)
        | Returns _ => (mkLinkResult true None, afterLink (afterGet w) body)
        end
  end.

(** [unlinkProductFromLead(leadId, productElementId, config)] *)
Definition unlinkProductFromLead (productElementId : number) (w : World)
  : LinkResult * World :=
  let body :=
    ArrayOf [mkLinkRequest (mkLink productElementId "catalog_elements") None] in
  match post_unlink net (List.length (unlink_posts w)) body with
  | Throws _ msg =>
      (mkLinkResult false (Some (UnlinkProductError msg)), afterUnlink w body)
  | Returns _ => (mkLinkResult true None, afterUnlink w body)
  end.

(** The arguments of the tool [kommo_link_product_to_lead]; [metadata] is
    not in the tool's schema, and is taken here as a number when it is
    given. *)
Record LinkProductArgs : Type := mkLinkProductArgs {
  arg_productId : number;
  arg_quantity : option number;
  arg_metadata : option number;
}.

(* args.quantity || 1 *)
Definition quantityOrOne (q : option number) : number :=
  match q with
  | Some n => if truthy n then n else Int 1
  | None => Int 1
  end.

(** [handleLinkProductToLead(args, config)]: it calls
    [linkProductToLead(args.leadId, args.productId, args.quantity || 1,
    args.metadata, config)]; the response is the result, an error
    response when it is no success. *)
Definition handleLinkProductToLead (args : LinkProductArgs) (w : World)
  : LinkResult * World :=
  linkProductToLead (arg_productId args) (quantityOrOne (arg_quantity args))
    (arg_metadata args) w.
End Operations.

End Links.

(* ================================================================== *)
(** ** Pagination (utils/pagination.ts) *)
(* ================================================================== *)

(** [Math.max(a, b)] and [Math.min(a, b)]: NaN as soon as one is NaN. *)
Definition mathMax (a b : number) : number :=
  if isNaN a || isNaN b then NaN
  else match sub_sign a b with Lt => b | _ => a end.

Definition mathMin (a b : number) : number :=
  if isNaN a || isNaN b then NaN
  else match sub_sign a b with Gt => b | _ => a end.

Record PaginationParams : Type := mkPaginationParams {
  page : option number;
  limit : option number;
}.

(* params?.page ?? 1 *)
Definition pageOr (params : option PaginationParams) (d : number) : number :=
  match params with
  | Some p => match page p with Some n => n | None => d end
  | None => d
  end.

Definition limitOr (params : option PaginationParams) (d : number) : number :=
  match params with
  | Some p => match limit p with Some n => n | None => d end
  | None => d
  end.

(** [normalizePagination(params)], as [(page, limit)]. *)
Definition normalizePagination (params : option PaginationParams)
  : number * number :=
  (mathMax (Int 1) (pageOr params (Int 1)),
   mathMin (Int 250) (mathMax (Int 1) (limitOr params (Int 50)))).

(** [a <= b] on numbers, false when one is NaN. *)
Definition number_le (a b : number) : Prop :=
  isNaN a = false /\ isNaN b = false /\ sub_sign a b <> Gt.

(** All characters are word characters or white space. *)
Fixpoint wordsAndSpaces (s : string) : bool :=
  match s with
  | EmptyString => true
  | String c r => (isWord c || isSpace c) && wordsAndSpaces r
  end.

(** White space occurs only as single blanks; [prev] tells that the
    previous character was white space. *)
Fixpoint singleBlanks (prev : bool) (s : string) : bool :=
  match s with
  | EmptyString => true
  | String c r =>
      if isSpace c
      then Ascii.eqb c " "%char && negb prev && singleBlanks true r
      else singleBlanks false r
  end.

(* ================================================================== *)
(** ** Lemmas on the operations *)
(* ================================================================== *)

Section Facts.
Variable net : Transport.
Variable leadId : number.

Lemma getLead_world w :
  snd (getLead net leadId w) = tickLead w.
Proof.
  unfold getLead.
  destruct (get_lead net (lead_gets w)) as [sc msg | [lead |]]; simpl;
    try destruct (is404 sc); reflexivity.
Qed.

Lemma leadRead_patches w : patches (leadRead leadId w) = patches w.
Proof. unfold leadRead. destruct (is_positive_integer leadId); reflexivity. Qed.

Lemma leadRead_catalog w : catalog_gets (leadRead leadId w) = catalog_gets w.
Proof. unfold leadRead. destruct (is_positive_integer leadId); reflexivity. Qed.

Lemma getLeadCustomFields_world w :
  snd (getLeadCustomFields net leadId w) = leadRead leadId w.
Proof.
  unfold getLeadCustomFields, bind, validLeadId, leadRead.
  destruct (is_positive_integer leadId); [simpl | reflexivity].
  pose proof (getLead_world w) as H.
  destruct (getLead net leadId w) as [r w1]; simpl in H; subst w1.
  destruct (gl_success r), (gl_lead r); reflexivity.
Qed.

Lemma getLeadCustomFields_fails w :
  leadFetchFails (get_lead net (lead_gets w)) ->
  cf_success (fst (getLeadCustomFields net leadId w)) = false.
Proof.
  unfold getLeadCustomFields, bind, getLead, leadFetchFails, validLeadId.
  destruct (is_positive_integer leadId); [simpl | reflexivity].
  destruct (get_lead net (lead_gets w)) as [sc msg | [lead |]]; simpl;
    intros H; try contradiction; try destruct (is404 sc); reflexivity.
Qed.

Lemma getLeadCustomFields_fields w cfs :
  customFields (fst (getLeadCustomFields net leadId w)) = Some cfs ->
  exists lead,
    get_lead net (lead_gets w) = Returns (Some lead)
    /\ cfs = match custom_fields_values lead with Some l => l | None => [] end.
Proof.
  unfold getLeadCustomFields, bind, getLead, validLeadId.
  destruct (is_positive_integer leadId); [simpl | discriminate].
  destruct (get_lead net (lead_gets w)) as [sc msg | [lead |]]; simpl;
    try destruct (is404 sc); simpl; intros H; try discriminate.
  injection H as <-. eauto.
Qed.

Lemma searchLeadCustomField_world term w :
  snd (searchLeadCustomField net leadId term w) = leadRead leadId w.
Proof.
  unfold searchLeadCustomField, bind.
  pose proof (getLeadCustomFields_world w) as H.
  destruct (getLeadCustomFields net leadId w) as [r w1]; simpl in H; subst w1.
  destruct (cf_success r), (customFields r) as [cfs |]; try reflexivity.
  destruct (if negb (isNaN (Number term)) then _ else _); [reflexivity |].
  destruct (List.find _ cfs); reflexivity.
Qed.

Lemma searchLeadCustomField_fails term w :
  leadFetchFails (get_lead net (lead_gets w)) ->
  sr_success (fst (searchLeadCustomField net leadId term w)) = false.
Proof.
  intros H. apply getLeadCustomFields_fails in H.
  unfold searchLeadCustomField, bind.
  destruct (getLeadCustomFields net leadId w) as [r w1]; simpl in H.
  rewrite H. reflexivity.
Qed.

(** A field found by the search is one of the fields of the lead read by
    that very search. *)
Lemma searchLeadCustomField_found term w f :
  sr_field (fst (searchLeadCustomField net leadId term w)) = Some f ->
  exists lead cfs,
    get_lead net (lead_gets w) = Returns (Some lead)
    /\ cfs = match custom_fields_values lead with Some l => l | None => [] end
    /\ In f cfs.
Proof.
  unfold searchLeadCustomField, bind.
  pose proof (getLeadCustomFields_fields w) as Hf.
  destruct (getLeadCustomFields net leadId w) as [r w1]; simpl in Hf.
  destruct (cf_success r), (customFields r) as [cfs |]; simpl;
    try discriminate.
  destruct (Hf cfs eq_refl) as (lead & Hl & Hc).
  intros H. exists lead, cfs. split; [exact Hl | split; [exact Hc |]].
  destruct (if negb (isNaN (Number term)) then _ else _) as [g |] eqn:E1.
  - simpl in H. injection H as <-.
    destruct (negb (isNaN (Number term))); [| discriminate].
    apply find_some in E1. tauto.
  - destruct (List.find (fun f => includes _ _ || _) cfs) as [g |] eqn:E2;
      simpl in H; [| discriminate].
    injection H as <-. apply find_some in E2. tauto.
Qed.

Lemma getLeadCustomFieldsMetadata_world w :
  snd (getLeadCustomFieldsMetadata net w) = tickCatalog w.
Proof.
  unfold getLeadCustomFieldsMetadata.
  destruct (get_custom_fields net (catalog_gets w)) as [sc msg | [fs |]];
    reflexivity.
Qed.

Lemma getSelectFieldOptions_world fid w :
  snd (getSelectFieldOptions net fid w) = tickCatalog w.
Proof.
  unfold getSelectFieldOptions, bind.
  pose proof (getLeadCustomFieldsMetadata_world w) as H.
  destruct (getLeadCustomFieldsMetadata net w) as [r w1]; simpl in H; subst w1.
  destruct (md_success r), (md_fields r) as [fs |]; try reflexivity.
  destruct (List.find _ fs) as [f |]; [| reflexivity].
  destruct (negb _ && negb _); reflexivity.
Qed.

(** *** The sorted options are the enums of the definition *)

Lemma insert_sorted_In {A} (cmp : A -> A -> comparison) (x y : A) l :
  In y (insert_sorted cmp x l) <-> y = x \/ In y l.
Proof.
  induction l as [| z l IH]; simpl.
  - intuition congruence.
  - destruct (cmp x z); simpl; rewrite ?IH; intuition congruence.
Qed.

Lemma sort_In {A} (cmp : A -> A -> comparison) (y : A) l :
  In y (sort cmp l) <-> In y l.
Proof.
  unfold sort. induction l as [| x l IH]; simpl; [tauto |].
  rewrite insert_sorted_In, IH. intuition congruence.
Qed.


(** Where a successful options lookup takes its options from. *)
Lemma getSelectFieldOptions_options fid w opts o :
  options (fst (getSelectFieldOptions net fid w)) = Some opts ->
  In o opts ->
  exists fields f es e,
    get_custom_fields net (catalog_gets w) = Returns (Some fields)
    /\ In f fields
    /\ strict_eq (def_id f) fid = true
    /\ def_enums f = Some es
    /\ In e es
    /\ o = optionOfEnum e.
Proof.
  unfold getSelectFieldOptions, bind, getLeadCustomFieldsMetadata.
  destruct (get_custom_fields net (catalog_gets w)) as [sc msg | [fs |]];
    simpl; try discriminate.
  destruct (List.find (fun f => strict_eq (def_id f) fid) (List.filter hasEnums fs))
    as [f |] eqn:Ef; simpl; [| discriminate].
  apply find_some in Ef. destruct Ef as [Hin Heq].
  apply filter_In in Hin. destruct Hin as [Hin _].
  destruct (negb _ && negb _); simpl; [discriminate |].
  destruct (def_enums f) as [es |] eqn:Ees; simpl;
    [| intros H; discriminate H ].
  destruct (sort (compareOptions net) (List.map optionOfEnum es))
    as [| o1 os] eqn:Es; [discriminate |].
  intros H Ho. injection H as <-. rewrite <- Es in Ho.
  apply sort_In in Ho. apply in_map_iff in Ho. destruct Ho as (e & He & Hine).
  exists fs, f, es, e. repeat split; auto.
Qed.

(** The three ways the lookup comes back unsuccessful. *)
Lemma getSelectFieldOptions_transport_failure fid w :
  (forall fields, get_custom_fields net (catalog_gets w) <> Returns (Some fields)) ->
  or_success (fst (getSelectFieldOptions net fid w)) = false.
Proof.
  unfold getSelectFieldOptions, bind, getLeadCustomFieldsMetadata.
  destruct (get_custom_fields net (catalog_gets w)) as [sc msg | [fs |]];
    simpl; intros H; try reflexivity.
  exfalso. apply (H fs). reflexivity.
Qed.

Lemma getSelectFieldOptions_absent fid w fields :
  get_custom_fields net (catalog_gets w) = Returns (Some fields) ->
  (forall f, In f fields -> hasEnums f = true -> strict_eq (def_id f) fid = false) ->
  or_success (fst (getSelectFieldOptions net fid w)) = false.
Proof.
  unfold getSelectFieldOptions, bind, getLeadCustomFieldsMetadata.
  intros -> H. simpl.
  destruct (List.find (fun f => strict_eq (def_id f) fid) (List.filter hasEnums fields))
    as [f |] eqn:Ef; simpl; [| reflexivity].
  apply find_some in Ef. destruct Ef as [Hin Heq].
  apply filter_In in Hin. destruct Hin as [Hin He].
  rewrite (H f Hin He) in Heq. discriminate.
Qed.

Lemma getSelectFieldOptions_not_select fid w fields f :
  get_custom_fields net (catalog_gets w) = Returns (Some fields) ->
  List.find (fun f => strict_eq (def_id f) fid) (List.filter hasEnums fields) = Some f ->
  def_type f <> "select" -> def_type f <> "multiselect" ->
  or_success (fst (getSelectFieldOptions net fid w)) = false.
Proof.
  unfold getSelectFieldOptions, bind, getLeadCustomFieldsMetadata.
  intros -> Hf H1 H2. simpl. rewrite Hf.
  apply String.eqb_neq in H1, H2. rewrite H1, H2. reflexivity.
Qed.

(** *** One entry with a field id in hand *)

Lemma applyValue_world key raw fid acc w :
  snd (applyValue net key raw fid acc w) = tickCatalog w.
Proof.
  unfold applyValue, bind.
  pose proof (getSelectFieldOptions_world fid w) as H.
  destruct (getSelectFieldOptions net fid w) as [r w1]; simpl in H; subst w1.
  destruct (or_success r), (options r) as [[| o os] |]; try reflexivity.
  destruct (matchOption raw (o :: os)); reflexivity.
Qed.

Lemma applyValue_plain key raw fid acc w :
  or_success (fst (getSelectFieldOptions net fid w)) = false ->
  applyValue net key raw fid acc w
  = (pushValue acc (mkPayloadEntry fid [mkFieldValue raw None None]),
     tickCatalog w).
Proof.
  intros H. unfold applyValue, bind.
  pose proof (getSelectFieldOptions_world fid w) as Hw.
  destruct (getSelectFieldOptions net fid w) as [r w1]; simpl in *; subst w1.
  rewrite H. reflexivity.
Qed.

Lemma applyValue_matched key raw fid acc w opts o :
  or_success (fst (getSelectFieldOptions net fid w)) = true ->
  options (fst (getSelectFieldOptions net fid w)) = Some opts ->
  matchOption raw opts = Some o ->
  applyValue net key raw fid acc w
  = (pushValue acc
       (mkPayloadEntry fid
          [mkFieldValue (opt_value o) None (Some (opt_enum_id o))]),
     tickCatalog w).
Proof.
  intros Hs Ho Hm. unfold applyValue, bind.
  pose proof (getSelectFieldOptions_world fid w) as Hw.
  destruct (getSelectFieldOptions net fid w) as [r w1]; simpl in *; subst w1.
  rewrite Hs, Ho. destruct opts as [| o1 os]; [discriminate Hm |].
  rewrite Hm. reflexivity.
Qed.

(** Whatever the lookup says, the entry lands in exactly one array, the
    field id of a payload entry is the one handed in, and an error is not
    a "Field not found". *)
Lemma applyValue_pushed key raw fid acc w :
  (exists vals, fst (applyValue net key raw fid acc w)
                = pushValue acc (mkPayloadEntry fid vals))
  \/ (exists e, fst (applyValue net key raw fid acc w) = pushError acc e
                /\ isNotFound e = false).
Proof.
  unfold applyValue, bind.
  destruct (getSelectFieldOptions net fid w) as [r w1].
  destruct (or_success r), (options r) as [[| o os] |];
    try (left; eexists; reflexivity).
  destruct (matchOption raw (o :: os)).
  - left; eexists; reflexivity.
  - right; eexists; split; reflexivity.
Qed.

(** *** The resolver *)

Lemma resolveFieldId_numeric m key w :
  isNaN (Number key) = false ->
  resolveFieldId net leadId m key w = (Some (Number key), w).
Proof. intros H. unfold resolveFieldId. rewrite H. reflexivity. Qed.

Lemma resolveFieldId_text_world m key w :
  isNaN (Number key) = true ->
  snd (resolveFieldId net leadId m key w) = leadRead leadId w.
Proof.
  intros H. unfold resolveFieldId, bind. rewrite H. simpl.
  pose proof (searchLeadCustomField_world key w) as Hw.
  destruct (searchLeadCustomField net leadId key w) as [r w1];
    simpl in Hw; subst w1.
  destruct (sr_success r), (sr_field r); reflexivity.
Qed.

(** What one turn of the loop comes to. *)
Lemma processEntry_cases m key raw acc w :
  (isNaN (Number key) = false
   /\ processEntry net leadId m (key, raw) acc w
      = applyValue net key raw (Number key) acc w)
  \/ (isNaN (Number key) = true
      /\ exists fid,
           fst (resolveFieldId net leadId m key w) = Some fid
           /\ truthy fid = true
           /\ processEntry net leadId m (key, raw) acc w
              = applyValue net key raw fid acc (leadRead leadId w))
  \/ (isNaN (Number key) = true
      /\ processEntry net leadId m (key, raw) acc w
         = (pushError acc (mkFieldError key (FieldNotFound key)),
            leadRead leadId w)).
Proof.
  unfold processEntry, bind. cbn [fst snd].
  destruct (isNaN (Number key)) eqn:En.
  - right.
    pose proof (resolveFieldId_text_world m key w En) as Hw.
    destruct (resolveFieldId net leadId m key w) as [[fid |] w1];
      simpl in Hw; subst w1.
    + destruct (truthy fid) eqn:Et.
      * left. split; [reflexivity |]. exists fid. auto.
      * right. split; [reflexivity |].
        unfold numericFallback; cbv zeta. rewrite En. reflexivity.
    + right. split; [reflexivity |].
      unfold numericFallback; cbv zeta. rewrite En. reflexivity.
  - left. split; [reflexivity |].
    rewrite (resolveFieldId_numeric m key w En).
    destruct (truthy (Number key)); [reflexivity |].
    unfold numericFallback; cbv zeta. rewrite En. reflexivity.
Qed.

Lemma processEntry_pushed m entry acc w :
  Pushed acc (fst (processEntry net leadId m entry acc w)).
Proof.
  destruct entry as [key raw].
  destruct (processEntry_cases m key raw acc w)
    as [[_ ->] | [(_ & fid & _ & _ & ->) | [_ ->]]].
  - destruct (applyValue_pushed key raw (Number key) acc w)
      as [[v ->] | (e & -> & _)]; constructor.
  - destruct (applyValue_pushed key raw fid acc (leadRead leadId w))
      as [[v ->] | (e & -> & _)]; constructor.
  - constructor.
Qed.

Lemma processEntry_patches m entry acc w :
  patches (snd (processEntry net leadId m entry acc w)) = patches w.
Proof.
  destruct entry as [key raw].
  destruct (processEntry_cases m key raw acc w)
    as [[_ ->] | [(_ & fid & _ & _ & ->) | [_ ->]]];
    rewrite ?applyValue_world; cbn [snd tickCatalog patches];
    rewrite ?leadRead_patches; reflexivity.
Qed.

(** *** The loop *)

Lemma forEntries_cons m entry rest acc w :
  forEntries net leadId m (entry :: rest) acc w
  = forEntries net leadId m rest
      (fst (processEntry net leadId m entry acc w))
      (snd (processEntry net leadId m entry acc w)).
Proof.
  simpl. unfold bind.
  destruct (processEntry net leadId m entry acc w); reflexivity.
Qed.

Lemma forEntries_patches m entries : forall acc w,
  patches (snd (forEntries net leadId m entries acc w)) = patches w.
Proof.
  induction entries as [| entry rest IH]; intros acc w; [reflexivity |].
  rewrite forEntries_cons, IH. apply processEntry_patches.
Qed.


Lemma Pushed_lengths acc acc' :
  Pushed acc acc' ->
  (List.length (customFieldsValues acc') + List.length (acc_errors acc')
   = S (List.length (customFieldsValues acc) + List.length (acc_errors acc)))%nat.
Proof.
  intros [e | e]; simpl; rewrite length_app; simpl; lia.
Qed.

(** Every entry ends up in exactly one of the two arrays. *)
Lemma forEntries_lengths m entries : forall acc w,
  let acc' := fst (forEntries net leadId m entries acc w) in
  (List.length (customFieldsValues acc') + List.length (acc_errors acc')
   = List.length (customFieldsValues acc) + List.length (acc_errors acc)
     + List.length entries)%nat.
Proof.
  induction entries as [| entry rest IH]; intros acc w; [simpl; lia |].
  rewrite forEntries_cons. cbv zeta in *. rewrite IH.
  rewrite (Pushed_lengths _ _ (processEntry_pushed m entry acc w)).
  simpl. lia.
Qed.

Lemma notFoundCount_app l1 l2 :
  notFoundCount (l1 ++ l2) = (notFoundCount l1 + notFoundCount l2)%nat.
Proof. unfold notFoundCount. rewrite List.filter_app, length_app. reflexivity. Qed.

(** One catalog request per entry, the "Field not found" ones apart. *)
Lemma processEntry_catalog m entry acc w :
  let r := processEntry net leadId m entry acc w in
  (catalog_gets (snd r) + notFoundCount (acc_errors (fst r))
   = S (catalog_gets w + notFoundCount (acc_errors acc)))%nat.
Proof.
  destruct entry as [key raw]. cbv zeta.
  assert (Ha : forall fid w0,
    (catalog_gets (snd (applyValue net key raw fid acc w0))
     + notFoundCount (acc_errors (fst (applyValue net key raw fid acc w0)))
     = S (catalog_gets w0 + notFoundCount (acc_errors acc)))%nat).
  { intros fid w0. rewrite applyValue_world.
    destruct (applyValue_pushed key raw fid acc w0)
      as [[v ->] | (e & -> & He)]; simpl; [lia |].
    rewrite notFoundCount_app. unfold notFoundCount at 2. simpl.
    rewrite He. simpl. lia. }
  destruct (processEntry_cases m key raw acc w)
    as [[_ ->] | [(_ & fid & _ & _ & ->) | [_ ->]]].
  - apply Ha.
  - rewrite Ha, leadRead_catalog. reflexivity.
  - cbn [fst snd pushError acc_errors]. rewrite leadRead_catalog.
    rewrite notFoundCount_app. unfold notFoundCount at 2. simpl. lia.
Qed.

Lemma forEntries_catalog m entries : forall acc w,
  let r := forEntries net leadId m entries acc w in
  (catalog_gets (snd r) + notFoundCount (acc_errors (fst r))
   = catalog_gets w + notFoundCount (acc_errors acc) + List.length entries)%nat.
Proof.
  induction entries as [| entry rest IH]; intros acc w; [simpl; lia |].
  rewrite forEntries_cons. cbv zeta in *. rewrite IH.
  pose proof (processEntry_catalog m entry acc w) as H. cbv zeta in H.
  simpl. lia.
Qed.

(** *** The whole operation, phase by phase *)

Lemma updateLead_world data w :
  snd (updateLead net leadId data w)
  = mkWorld (lead_gets w) (catalog_gets w) (patches w ++ [data]).
Proof.
  unfold updateLead.
  destruct (patch_lead net (List.length (patches w)) data) as [sc msg | [l |]];
    try destruct (is404 sc); reflexivity.
Qed.

Lemma updateLeadCustomFields_phases fields w :
  updateLeadCustomFields net leadId fields w
  = let acc := fst (assemble net leadId fields w) in
    let w1 := snd (assemble net leadId fields w) in
    match customFieldsValues acc with
    | [] => (mkOutcome false (Some O) (Some (acc_errors acc))
               (Some NoFieldsMapped), w1)
    | _ :: _ =>
        let r := fst (updateLead net leadId (customFieldsValues acc) w1) in
        (if negb (lw_success r)
         then mkOutcome false (Some O) (errorsOrUndefined (acc_errors acc))
                (lw_error r)
         else mkOutcome true (Some (List.length (customFieldsValues acc)))
                (errorsOrUndefined (acc_errors acc)) None,
         snd (updateLead net leadId (customFieldsValues acc) w1))
    end.
Proof.
  unfold updateLeadCustomFields, assemble, bind.
  destruct (getLeadCustomFields net leadId w) as [ex w0].
  destruct (forEntries net leadId (buildNameToIdMap ex) fields (mkAcc [] []) w0)
    as [acc w1].
  cbn [fst snd]. destruct (customFieldsValues acc) as [| p ps]; [reflexivity |].
  destruct (updateLead net leadId (p :: ps) w1) as [r w2]. cbn [fst snd].
  destruct (negb (lw_success r)); reflexivity.
Qed.

Lemma assemble_patches fields w :
  patches (snd (assemble net leadId fields w)) = patches w.
Proof.
  unfold assemble, bind.
  pose proof (getLeadCustomFields_world w) as H.
  destruct (getLeadCustomFields net leadId w) as [ex w0]; simpl in H; subst w0.
  rewrite forEntries_patches. apply leadRead_patches.
Qed.

Lemma assemble_lengths fields w :
  let acc := fst (assemble net leadId fields w) in
  (List.length (customFieldsValues acc) + List.length (acc_errors acc)
   = List.length fields)%nat.
Proof.
  unfold assemble, bind.
  destruct (getLeadCustomFields net leadId w) as [ex w0].
  pose proof (forEntries_lengths (buildNameToIdMap ex) fields (mkAcc [] []) w0)
    as H.
  cbv zeta in *. rewrite H. reflexivity.
Qed.

Lemma assemble_catalog fields w :
  let r := assemble net leadId fields w in
  (catalog_gets (snd r) + notFoundCount (acc_errors (fst r))
   = catalog_gets w + List.length fields)%nat.
Proof.
  unfold assemble, bind.
  pose proof (getLeadCustomFields_world w) as Hw.
  destruct (getLeadCustomFields net leadId w) as [ex w0]; simpl in Hw; subst w0.
  pose proof (forEntries_catalog (buildNameToIdMap ex) fields (mkAcc [] [])
                (leadRead leadId w)) as H.
  cbv zeta in *. rewrite H, leadRead_catalog. unfold notFoundCount. simpl. lia.
Qed.

Lemma errorsOrUndefined_length l :
  match errorsOrUndefined l with Some l' => List.length l' | None => O end
  = List.length l.
Proof. destruct l; reflexivity. Qed.

Lemma errorsOrUndefined_notFound l :
  match errorsOrUndefined l with Some l' => notFoundCount l' | None => O end
  = notFoundCount l.
Proof. destruct l; reflexivity. Qed.
End Facts.

(* ================================================================== *)
(** ** The Option Matcher: order of evaluation *)
(* ================================================================== *)

(** [find] returns the first element on which the callback holds. *)
Lemma matchOption_first_match raw opts o :
  matchOption raw opts = Some o <->
  exists pre post : list SelectOption,
    opts = (pre ++ o :: post)%list
    /\ optionMatches raw o = true
    /\ Forall (fun p => optionMatches raw p = false) pre.
Proof.
  unfold matchOption. split.
  - induction opts as [| x opts IH]; simpl; [discriminate |].
    destruct (optionMatches raw x) eqn:Ex.
    + intros [= <-]. exists [], opts. auto.
    + intros H. destruct (IH H) as (pre & post & -> & Ho & Hpre).
      exists (x :: pre), post. auto.
  - intros (pre & post & -> & Ho & Hpre).
    induction Hpre as [| x pre Hx _ IH]; simpl.
    + rewrite Ho. reflexivity.
    + rewrite Hx. exact IH.
Qed.

Lemma exactRule_matches raw o :
  exactRule raw o = true -> optionMatches raw o = true.
Proof. unfold optionMatches. intros ->. reflexivity. Qed.

(** C1, as the code has it: the callback of [find] tries every rule on an
    option before the next option is looked at, so the matcher returns the
    first option, in the order [getSelectFieldOptions] lists them, that
    satisfies any rule.  An option that matches exactly is returned when
    no option before it satisfies a rule; when one does, the first such
    earlier option is returned instead. *)
Theorem exact_match_wins_when_nothing_earlier_matches
        (raw : string) (pre post : list SelectOption) (o : SelectOption) :
  exactRule raw o = true ->
  (Forall (fun p => optionMatches raw p = false) pre ->
   matchOption raw (pre ++ o :: post)%list = Some o)
  /\ (Exists (fun p => optionMatches raw p = true) pre ->
      exists q, In q pre /\ optionMatches raw q = true
                /\ matchOption raw (pre ++ o :: post)%list = Some q).
Proof.
  intros He. split.
  - intros Hpre. apply matchOption_first_match.
    exists pre, post. auto using exactRule_matches.
  - intros Hex. unfold matchOption.
    induction Hex as [x pre Hx | x pre _ IH]; simpl.
    + rewrite Hx. exists x. simpl. auto.
    + destruct (optionMatches raw x) eqn:Ex.
      * exists x. simpl. auto.
      * destruct IH as (q & Hq & Hm & Hf). exists q. simpl. auto.
Qed.

Lemma exact_match_wins_when_nothing_earlier_matches_witness :
  matchOption "ACTIVE " ([pending] ++ active :: [notActive])%list = Some active.
Proof.
  apply (exact_match_wins_when_nothing_earlier_matches
           "ACTIVE " [pending] [notActive] active).
  - reflexivity.
  - repeat constructor.
Defined.

(** C1 as stated fails: "Not Active" sorts before "Active", contains the
    input "active", and is what the matcher returns although "Active" is
    an exact match. *)
Lemma exact_match_loses_to_earlier_substring :
  options (fst (getSelectFieldOptions steadyNet (Int 700) world0))
  = Some [notActive; active]
  /\ exactRule "active" active = true
  /\ exactRule "active" notActive = false
  /\ containsRule "active" notActive = true
  /\ matchOption "active" [notActive; active] = Some notActive
  /\ customFieldsValues
       (fst (applyValue steadyNet "700" "active" (Int 700) (mkAcc [] []) world0))
     = [mkPayloadEntry (Int 700)
          [mkFieldValue "Not Active" None (Some (Int 1))]].
Proof. vm_compute. repeat split. Qed.

(* ================================================================== *)
(** ** The batch: accounting, requests, writes *)
(* ================================================================== *)

(** C2, as the code has it: every key ends up in exactly one of the two
    arrays; [updatedFields + errors.length] is the number of keys when the
    batch succeeds and when nothing was written, and when the write call
    fails [updatedFields] is 0 and [errors] lists the keys that did not
    make it into the body that was sent. *)
Theorem keys_accounted_for
        (net : Transport) (leadId : number)
        (fields : list (string * string)) (w : World) :
  let out := fst (updateLeadCustomFields net leadId fields w) in
  let w' := snd (updateLeadCustomFields net leadId fields w) in
  ((success out = true \/ patches w' = patches w)
   /\ resolvedCount out + errorCount out = List.length fields)%nat
  \/ (success out = false
      /\ resolvedCount out = O
      /\ exists body,
           body <> []
           /\ patches w' = (patches w ++ [body])%list
           /\ (List.length body + errorCount out = List.length fields)%nat).
Proof.
  cbv zeta. rewrite updateLeadCustomFields_phases. cbv zeta.
  pose proof (assemble_lengths net leadId fields w) as HL. cbv zeta in HL.
  pose proof (assemble_patches net leadId fields w) as HP.
  destruct (assemble net leadId fields w) as [acc w1]. cbn [fst snd] in *.
  destruct (customFieldsValues acc) as [| p ps] eqn:Ep.
  - left. cbn. split; [right; exact HP | exact HL].
  - rewrite updateLead_world.
    destruct (lw_success (fst (updateLead net leadId (p :: ps) w1))); cbn.
    + left. split; [left; reflexivity |].
      unfold errorCount. cbn. rewrite errorsOrUndefined_length.
      simpl in HL. lia.
    + right. split; [reflexivity | split; [reflexivity |]].
      exists (p :: ps). split; [discriminate |].
      rewrite HP. split; [reflexivity |].
      unfold errorCount. cbn. rewrite errorsOrUndefined_length.
      simpl in HL. lia.
Qed.

(** C2 as stated fails when the write call fails: one key, resolved, and
    the outcome counts no field and no error. *)
Lemma failed_write_breaks_accounting :
  let out := fst (updateLeadCustomFields refusingNet (Int 42)
                    [("Nombre", "Juan")] world0) in
  success out = false
  /\ resolvedCount out = O
  /\ errorCount out = O
  /\ (resolvedCount out + errorCount out <> List.length [("Nombre", "Juan")])%nat.
Proof. vm_compute. repeat split. discriminate. Qed.

(** C3, as the code has it: there is no fetch for the batch as a whole;
    [getSelectFieldOptions] fetches the catalog anew every time it is
    called, and it is called once for every entry that gets a field id,
    that is, for every entry but those reported as "Field not found". *)
Theorem catalog_fetched_once_per_resolved_entry
        (net : Transport) (leadId : number)
        (fields : list (string * string)) (w : World) :
  let out := fst (updateLeadCustomFields net leadId fields w) in
  let w' := snd (updateLeadCustomFields net leadId fields w) in
  (catalog_gets w' + notFoundErrors out
   = catalog_gets w + List.length fields)%nat.
Proof.
  cbv zeta. rewrite updateLeadCustomFields_phases. cbv zeta.
  pose proof (assemble_catalog net leadId fields w) as HC. cbv zeta in HC.
  destruct (assemble net leadId fields w) as [acc w1]. cbn [fst snd] in *.
  destruct (customFieldsValues acc) as [| p ps]; [exact HC |].
  rewrite updateLead_world.
  destruct (negb (lw_success (fst (updateLead net leadId (p :: ps) w1))));
    unfold notFoundErrors; cbn; rewrite errorsOrUndefined_notFound; exact HC.
Qed.

(** C3 as stated fails: two numeric keys, two fetches of the catalog. *)
Lemma two_entries_two_catalog_fetches :
  let w' := snd (updateLeadCustomFields steadyNet (Int 42)
                   [("501", "cali"); ("700", "active")] world0) in
  catalog_gets w' = 2%nat /\ catalog_gets w' <> 1%nat.
Proof. vm_compute. split; [reflexivity | discriminate]. Qed.

(** C4, as the code has it: nothing validates the map.  With an empty map
    the snapshot is fetched all the same (one read of the lead, the lead
    id being one [getLead] accepts), the loop has nothing to do, so no
    search, no catalog fetch and no write take place, and the failure
    'No fields could be mapped to field IDs' comes back, which the handler
    turns into an error response. *)
Theorem empty_map_fails_after_snapshot_fetch
        (net : Transport) (leadId : number) (w : World) :
  updateLeadCustomFields net leadId [] w
  = (mkOutcome false (Some O) (Some []) (Some NoFieldsMapped),
     leadRead leadId w)
  /\ handleUpdateLeadCustomFields net leadId [] w
     = (ToolError (Some NoFieldsMapped), leadRead leadId w)
  /\ (is_positive_integer leadId = true ->
      lead_gets (leadRead leadId w) = S (lead_gets w)).
Proof.
  assert (H : updateLeadCustomFields net leadId [] w
              = (mkOutcome false (Some O) (Some []) (Some NoFieldsMapped),
                 leadRead leadId w)).
  { unfold updateLeadCustomFields, bind.
    pose proof (getLeadCustomFields_world net leadId w) as Hw.
    destruct (getLeadCustomFields net leadId w) as [ex w0].
    simpl in Hw; subst w0. reflexivity. }
  split; [exact H | split].
  - unfold handleUpdateLeadCustomFields, bind. rewrite H. reflexivity.
  - intros Hv. unfold leadRead. rewrite Hv. reflexivity.
Qed.

Lemma empty_map_fails_after_snapshot_fetch_witness :
  is_positive_integer (Int 42) = true
  /\ lead_gets (leadRead (Int 42) world0) = S (lead_gets world0).
Proof.
  split; [reflexivity |].
  apply (proj2 (proj2 (empty_map_fails_after_snapshot_fetch steadyNet (Int 42)
                         world0))).
  reflexivity.
Defined.

(** C4 as stated fails: the empty map costs one read of the lead. *)
Lemma empty_map_still_reads_the_lead :
  let w' := snd (handleUpdateLeadCustomFields steadyNet (Int 42) [] world0) in
  lead_gets world0 = 0%nat /\ lead_gets w' = 1%nat.
Proof. vm_compute. split; reflexivity. Qed.

(** C7: the resolution phase writes nothing; after it, a non-empty body is
    sent in one PATCH, whole, and with an empty body nothing is sent and
    the outcome is the failure 'No fields could be mapped to field IDs'. *)
Theorem one_write_per_batch
        (net : Transport) (leadId : number)
        (fields : list (string * string)) (w : World) :
  let acc := fst (assemble net leadId fields w) in
  let w1 := snd (assemble net leadId fields w) in
  let out := fst (updateLeadCustomFields net leadId fields w) in
  let w' := snd (updateLeadCustomFields net leadId fields w) in
  patches w1 = patches w
  /\ match customFieldsValues acc with
     | [] => patches w' = patches w
             /\ success out = false
             /\ error out = Some NoFieldsMapped
     | _ :: _ => patches w' = (patches w ++ [customFieldsValues acc])%list
     end.
Proof.
  cbv zeta. rewrite updateLeadCustomFields_phases. cbv zeta.
  pose proof (assemble_patches net leadId fields w) as HP.
  destruct (assemble net leadId fields w) as [acc w1]. cbn [fst snd] in *.
  split; [exact HP |].
  destruct (customFieldsValues acc) as [| p ps].
  - cbn. auto.
  - cbn [snd]. rewrite updateLead_world. cbn. rewrite HP. reflexivity.
Qed.

(* ================================================================== *)
(** ** The resolver and the payload entries *)
(* ================================================================== *)

(** C5: a key that parses as an integer is its own field id.  The resolver
    answers at once, without a request (so without any search among the
    names and codes of the snapshot, and whatever the name map holds), and
    the entry is handled with that id: it becomes a payload entry for it
    or an invalid-option error, never "Field not found". *)
Theorem numeric_key_is_literal_id
        (net : Transport) (leadId : number) (m : gmap string number)
        (key raw : string) (acc : Acc) (w : World) (z : Z) :
  Number key = Int z ->
  resolveFieldId net leadId m key w = (Some (Int z), w)
  /\ processEntry net leadId m (key, raw) acc w
     = applyValue net key raw (Int z) acc w
  /\ lead_gets (snd (processEntry net leadId m (key, raw) acc w)) = lead_gets w
  /\ ((exists vals,
         fst (processEntry net leadId m (key, raw) acc w)
         = pushValue acc (mkPayloadEntry (Int z) vals))
      \/ (exists e,
            fst (processEntry net leadId m (key, raw) acc w) = pushError acc e
            /\ isNotFound e = false)).
Proof.
  intros Hn.
  assert (En : isNaN (Number key) = false) by (rewrite Hn; reflexivity).
  assert (Hp : processEntry net leadId m (key, raw) acc w
               = applyValue net key raw (Int z) acc w).
  { destruct (processEntry_cases net leadId m key raw acc w)
      as [[_ H] | [[E _] | [E _]]]; try congruence. }
  split; [| split; [exact Hp | split]].
  - rewrite <- Hn. apply resolveFieldId_numeric. exact En.
  - rewrite Hp, applyValue_world. reflexivity.
  - rewrite Hp. apply applyValue_pushed.
Qed.

Lemma numeric_key_is_literal_id_witness :
  Number "2" = Int 2
  /\ resolveFieldId numeralNet (Int 7) {["line 2" := Int 900]} "2" world0
     = (Some (Int 2), world0)
  /\ includes (lowerOrEmpty (Some "Line 2")) (toLowerCase "2") = true.
Proof.
  split; [reflexivity | split; [| reflexivity]].
  apply (numeric_key_is_literal_id numeralNet (Int 7) {["line 2" := Int 900]}
           "2" "x" (mkAcc [] []) world0 2).
  reflexivity.
Defined.

(** C6: when the match succeeds, the payload entry carries the value and
    the enum id of the matched option, and that option is an enum of the
    definition of the field in the catalog just fetched; the caller's text
    is not in the entry. *)
Theorem matched_entry_carries_catalog_value
        (net : Transport) (key raw : string) (fid : number)
        (acc : Acc) (w : World) (opts : list SelectOption) (o : SelectOption) :
  or_success (fst (getSelectFieldOptions net fid w)) = true ->
  options (fst (getSelectFieldOptions net fid w)) = Some opts ->
  matchOption raw opts = Some o ->
  applyValue net key raw fid acc w
  = (pushValue acc
       (mkPayloadEntry fid
          [mkFieldValue (opt_value o) None (Some (opt_enum_id o))]),
     tickCatalog w)
  /\ exists fields f es e,
       get_custom_fields net (catalog_gets w) = Returns (Some fields)
       /\ In f fields
       /\ strict_eq (def_id f) fid = true
       /\ def_enums f = Some es
       /\ In e es
       /\ opt_value o = enum_def_value e
       /\ opt_enum_id o = enum_def_id e.
Proof.
  intros Hs Ho Hm. split.
  - apply (applyValue_matched net key raw fid acc w opts o Hs Ho Hm).
  - assert (Hin : In o opts).
    { apply matchOption_first_match in Hm.
      destruct Hm as (pre & post & -> & _). apply in_elt. }
    destruct (getSelectFieldOptions_options net fid w opts o Ho Hin)
      as (fields & f & es & e & H1 & H2 & H3 & H4 & H5 & ->).
    exists fields, f, es, e. repeat split; assumption.
Qed.

Lemma matched_entry_carries_catalog_value_witness :
  customFieldsValues
    (fst (applyValue steadyNet "City" " BOGOTA!! " (Int 501) (mkAcc [] []) world0))
  = [mkPayloadEntry (Int 501) [mkFieldValue "Bogota" None (Some (Int 31))]].
Proof.
  refine (f_equal (fun r => customFieldsValues (fst r))
            (proj1 (matched_entry_carries_catalog_value steadyNet "City"
                      " BOGOTA!! " (Int 501) (mkAcc [] []) world0
                      [mkSelectOption "Bogota" (Int 31) (Some (Int 1));
                       mkSelectOption "Medellin" (Int 32) (Some (Int 2));
                       mkSelectOption "Cali" (Int 33) (Some (Int 3))]
                      (mkSelectOption "Bogota" (Int 31) (Some (Int 1)))
                      _ _ _)));
    reflexivity.
Defined.

(** C10: when [getSelectFieldOptions] comes back unsuccessful - the
    catalog request failed, the field is not among the definitions that
    have enums, or its type is neither select nor multiselect - the
    caller's text goes into the payload as it is, without an enum id, and
    no error is recorded. *)
Theorem unsuccessful_lookup_means_free_text
        (net : Transport) (key raw : string) (fid : number)
        (acc : Acc) (w : World) :
  ((forall fields,
       get_custom_fields net (catalog_gets w) <> Returns (Some fields))
   \/ (exists fields,
         get_custom_fields net (catalog_gets w) = Returns (Some fields)
         /\ forall f, In f fields -> hasEnums f = true ->
                      strict_eq (def_id f) fid = false)
   \/ (exists fields f,
         get_custom_fields net (catalog_gets w) = Returns (Some fields)
         /\ List.find (fun f => strict_eq (def_id f) fid)
              (List.filter hasEnums fields) = Some f
         /\ def_type f <> "select" /\ def_type f <> "multiselect")
   \/ or_success (fst (getSelectFieldOptions net fid w)) = false) ->
  or_success (fst (getSelectFieldOptions net fid w)) = false
  /\ applyValue net key raw fid acc w
     = (pushValue acc (mkPayloadEntry fid [mkFieldValue raw None None]),
        tickCatalog w)
  /\ acc_errors (fst (applyValue net key raw fid acc w)) = acc_errors acc.
Proof.
  intros H.
  assert (Hf : or_success (fst (getSelectFieldOptions net fid w)) = false).
  { destruct H as [H | [(fs & H1 & H2) | [(fs & f & H1 & H2 & H3 & H4) | H]]].
    - apply getSelectFieldOptions_transport_failure; exact H.
    - apply (getSelectFieldOptions_absent net fid w fs); assumption.
    - apply (getSelectFieldOptions_not_select net fid w fs f); assumption.
    - exact H. }
  split; [exact Hf |].
  rewrite (applyValue_plain net key raw fid acc w Hf). split; reflexivity.
Qed.

(** The catalog is down, and the select field 700 is sent free text. *)
Lemma unsuccessful_lookup_means_free_text_witness :
  customFieldsValues
    (fst (applyValue noCatalogNet "700" "whatever" (Int 700) (mkAcc [] []) world0))
  = [mkPayloadEntry (Int 700) [mkFieldValue "whatever" None None]].
Proof.
  refine (f_equal (fun r => customFieldsValues (fst r))
            (proj1 (proj2 (unsuccessful_lookup_means_free_text noCatalogNet
                             "700" "whatever" (Int 700) (mkAcc [] []) world0
                             _)))).
  left. intros fields. simpl. discriminate.
Defined.

(** With the catalog at hand the same entry is an error. *)
Example select_value_checked_when_catalog_answers :
  fst (applyValue steadyNet "700" "whatever" (Int 700) (mkAcc [] []) world0)
  = mkAcc []
      [mkFieldError "700"
         (InvalidSelectValue "whatever" (inl "Status") "Not Active, Active" false)].
Proof. vm_compute. reflexivity. Qed.

(* ================================================================== *)
(** ** Where the field ids come from *)
(* ================================================================== *)

Section FieldIds.
Variable net : Transport.
Variable leadId : number.
Variable P : number -> Prop.

Lemma addNames_values (m : gmap string number) (f : CustomField) :
  map_Forall (fun _ v => P v) m ->
  P (field_id f) ->
  map_Forall (fun _ v => P v) (addNames m f).
Proof.
  intros Hm Hf. unfold addNames.
  destruct (field_name f) as [n |], (field_code f) as [c |];
    repeat match goal with
           | |- context [if ?b then _ else _] => destruct b
           end;
    repeat apply map_Forall_insert_2; assumption.
Qed.

Lemma fold_addNames_values (cfs : list CustomField) :
  forall m : gmap string number,
    map_Forall (fun _ v => P v) m ->
    (forall f, In f cfs -> P (field_id f)) ->
    map_Forall (fun _ v => P v) (List.fold_left addNames cfs m).
Proof.
  induction cfs as [| f cfs IH]; intros m Hm Hall; simpl; [exact Hm |].
  apply IH.
  - apply addNames_values; [exact Hm | apply Hall; left; reflexivity].
  - intros g Hg. apply Hall. right. exact Hg.
Qed.

Lemma buildNameToIdMap_values w :
  (forall f, listedAt net (lead_gets w) f -> P (field_id f)) ->
  map_Forall (fun _ v => P v)
    (buildNameToIdMap (fst (getLeadCustomFields net leadId w))).
Proof.
  intros H. unfold buildNameToIdMap.
  pose proof (getLeadCustomFields_fields net leadId w) as Hf.
  destruct (getLeadCustomFields net leadId w) as [r w1]; cbn [fst] in *.
  destruct (cf_success r), (customFields r) as [cfs |];
    try apply map_Forall_empty.
  destruct (Hf cfs eq_refl) as (lead & Hl & Hc).
  apply fold_addNames_values; [apply map_Forall_empty |].
  intros f Hin. apply H. exists lead.
  destruct (custom_fields_values lead) as [l |]; subst cfs;
    [| destruct Hin].
  exists l. auto.
Qed.

(** A key that is no number resolves to the id of a field listed by the
    search's own read of the lead, or to an entry of the name map. *)
Lemma resolveFieldId_text_origin (m : gmap string number) key w fid :
  isNaN (Number key) = true ->
  fst (resolveFieldId net leadId m key w) = Some fid ->
  (exists f, listedAt net (lead_gets w) f /\ fid = field_id f)
  \/ m !! toLowerCase key = Some fid.
Proof.
  intros En. unfold resolveFieldId, bind. rewrite En. simpl.
  pose proof (searchLeadCustomField_found net leadId key w) as Hs.
  destruct (searchLeadCustomField net leadId key w) as [r w1]; cbn [fst] in *.
  destruct (sr_success r), (sr_field r) as [f |]; simpl; intros H;
    try (right; exact H).
  injection H as <-. left. exists f. split; [| reflexivity].
  destruct (Hs f eq_refl) as (lead & cfs & Hl & Hc & Hin).
  exists lead.
  destruct (custom_fields_values lead) as [l |]; subst cfs; [| destruct Hin].
  exists l. auto.
Qed.

Lemma resolveFieldId_text_holds (m : gmap string number) key w fid :
  (forall n f, listedAt net n f -> P (field_id f)) ->
  map_Forall (fun _ v => P v) m ->
  isNaN (Number key) = true ->
  fst (resolveFieldId net leadId m key w) = Some fid ->
  P fid.
Proof.
  intros Hl Hm En Hr.
  destruct (resolveFieldId_text_origin m key w fid En Hr)
    as [(f & Hf & ->) | Hk].
  - apply (Hl _ _ Hf).
  - apply (Hm _ _ Hk).
Qed.

Lemma applyValue_idsHold key raw fid acc w :
  P fid -> idsHold P acc ->
  idsHold P (fst (applyValue net key raw fid acc w)).
Proof.
  intros Hp Ha. unfold idsHold in *.
  destruct (applyValue_pushed net key raw fid acc w)
    as [[v ->] | (e & -> & _)]; simpl; [| exact Ha].
  apply Forall_app. split; [exact Ha |]. repeat constructor. exact Hp.
Qed.

Lemma processEntry_idsHold (m : gmap string number) key raw acc w :
  (forall n f, listedAt net n f -> P (field_id f)) ->
  map_Forall (fun _ v => P v) m ->
  (isNaN (Number key) = true \/ P (Number key)) ->
  idsHold P acc ->
  idsHold P (fst (processEntry net leadId m (key, raw) acc w)).
Proof.
  intros Hl Hm Hk Ha.
  destruct (processEntry_cases net leadId m key raw acc w)
    as [[En ->] | [(En & fid & Hr & _ & ->) | [_ ->]]].
  - destruct Hk as [Hk | Hk]; [congruence |].
    apply applyValue_idsHold; assumption.
  - apply applyValue_idsHold; [| exact Ha].
    apply (resolveFieldId_text_holds m key w fid Hl Hm En Hr).
  - exact Ha.
Qed.

Lemma forEntries_idsHold (m : gmap string number) entries :
  (forall n f, listedAt net n f -> P (field_id f)) ->
  map_Forall (fun _ v => P v) m ->
  Forall (fun e => isNaN (Number (fst e)) = true \/ P (Number (fst e))) entries ->
  forall acc w,
    idsHold P acc ->
    idsHold P (fst (forEntries net leadId m entries acc w)).
Proof.
  intros Hl Hm Hall. induction Hall as [| [key raw] rest Hk _ IH];
    intros acc w Ha; [exact Ha |].
  rewrite forEntries_cons. apply IH.
  apply processEntry_idsHold; assumption.
Qed.

Lemma assemble_idsHold fields w :
  (forall n f, listedAt net n f -> P (field_id f)) ->
  Forall (fun e => isNaN (Number (fst e)) = true \/ P (Number (fst e))) fields ->
  idsHold P (fst (assemble net leadId fields w)).
Proof.
  intros Hl Hall. unfold assemble, bind.
  pose proof (buildNameToIdMap_values w (fun f => Hl (lead_gets w) f)) as Hm.
  destruct (getLeadCustomFields net leadId w) as [ex w0]; cbn [fst] in Hm.
  apply forEntries_idsHold; try assumption. constructor.
Qed.
End FieldIds.

(** C8 as stated fails: the keys "0", "-5" and "1.5" parse as numbers and
    go into the body as field ids 0, -5 and 1.5. *)
Lemma numeric_keys_need_not_be_positive_integers :
  patches (snd (updateLeadCustomFields steadyNet (Int 42) [("0", "x")] world0))
  = [[mkPayloadEntry (Int 0) [mkFieldValue "x" None None]]]
  /\ patches (snd (updateLeadCustomFields steadyNet (Int 42) [("-5", "x")] world0))
     = [[mkPayloadEntry (Int (-5)) [mkFieldValue "x" None None]]]
  /\ patches (snd (updateLeadCustomFields steadyNet (Int 42) [("1.5", "x")] world0))
     = [[mkPayloadEntry (Frac 15 1) [mkFieldValue "x" None None]]]
  /\ is_positive_integer (Int 0) = false
  /\ is_positive_integer (Int (-5)) = false
  /\ is_positive_integer (Frac 15 1) = false.
Proof. vm_compute. repeat split. Qed.

(* ================================================================== *)
(** ** When the lead cannot be read *)
(* ================================================================== *)

Section NoSnapshot.
Variable net : Transport.
Variable leadId : number.
Hypothesis unreadable : forall n, leadFetchFails (get_lead net n).

Lemma no_field_listed n f : ~ listedAt net n f.
Proof.
  intros (lead & cfs & H & _). specialize (unreadable n).
  rewrite H in unreadable. exact unreadable.
Qed.

Lemma buildNameToIdMap_unreadable w :
  buildNameToIdMap (fst (getLeadCustomFields net leadId w)) = ∅.
Proof.
  pose proof (getLeadCustomFields_fails net leadId w (unreadable _)) as H.
  unfold buildNameToIdMap. rewrite H. reflexivity.
Qed.

Lemma processEntry_text_unreadable key raw acc w :
  isNaN (Number key) = true ->
  processEntry net leadId ∅ (key, raw) acc w
  = (pushError acc (mkFieldError key (FieldNotFound key)), leadRead leadId w).
Proof.
  intros En.
  destruct (processEntry_cases net leadId ∅ key raw acc w)
    as [[E _] | [(_ & fid & Hr & _) | [_ H]]];
    [congruence | | exact H].
  exfalso.
  destruct (resolveFieldId_text_origin net leadId ∅ key w fid En Hr)
    as [(f & Hf & _) | Hk].
  - exact (no_field_listed _ _ Hf).
  - rewrite lookup_empty in Hk. discriminate.
Qed.
End NoSnapshot.

Section Growth.
Variable net : Transport.
Variable leadId : number.

Lemma applyValue_pushed_key key raw fid acc w :
  (exists vals, fst (applyValue net key raw fid acc w)
                = pushValue acc (mkPayloadEntry fid vals))
  \/ (exists e, fst (applyValue net key raw fid acc w) = pushError acc e
                /\ isNotFound e = false /\ field e = key).
Proof.
  unfold applyValue, bind.
  destruct (getSelectFieldOptions net fid w) as [r w1].
  destruct (or_success r), (options r) as [[| o os] |];
    try (left; eexists; reflexivity).
  destruct (matchOption raw (o :: os)).
  - left; eexists; reflexivity.
  - right; eexists; repeat split; reflexivity.
Qed.

Lemma Pushed_incl acc acc' :
  Pushed acc acc' ->
  incl (customFieldsValues acc) (customFieldsValues acc')
  /\ incl (acc_errors acc) (acc_errors acc').
Proof.
  intros [e | e]; simpl; split;
    auto using incl_refl, incl_appl.
Qed.

(** The loop only ever appends. *)
Lemma forEntries_incl m entries : forall acc w,
  incl (customFieldsValues acc)
       (customFieldsValues (fst (forEntries net leadId m entries acc w)))
  /\ incl (acc_errors acc)
          (acc_errors (fst (forEntries net leadId m entries acc w))).
Proof.
  induction entries as [| entry rest IH]; intros acc w.
  - split; apply incl_refl.
  - rewrite forEntries_cons.
    destruct (Pushed_incl _ _ (processEntry_pushed net leadId m entry acc w))
      as [H1 H2].
    destruct (IH (fst (processEntry net leadId m entry acc w))
                 (snd (processEntry net leadId m entry acc w))) as [H3 H4].
    split; eapply incl_tran; eassumption.
Qed.
End Growth.

Section NoSnapshotBatch.
Variable net : Transport.
Variable leadId : number.
Hypothesis unreadable : forall n, leadFetchFails (get_lead net n).

Lemma forEntries_unreadable entries : forall acc w,
  let acc' := fst (forEntries net leadId ∅ entries acc w) in
  (forall key raw,
      In (key, raw) entries -> isNaN (Number key) = true ->
      In (mkFieldError key (FieldNotFound key)) (acc_errors acc'))
  /\ (forall key raw,
         In (key, raw) entries -> isNaN (Number key) = false ->
         (exists vals,
             In (mkPayloadEntry (Number key) vals) (customFieldsValues acc'))
         \/ (exists e, In e (acc_errors acc')
                       /\ isNotFound e = false /\ field e = key)).
Proof.
  induction entries as [| [k v] rest IH]; intros acc w; cbv zeta.
  - split; intros key raw [].
  - rewrite forEntries_cons.
    set (r := processEntry net leadId ∅ (k, v) acc w).
    destruct (forEntries_incl net leadId ∅ rest (fst r) (snd r)) as [Hv He].
    destruct (IH (fst r) (snd r)) as [IH1 IH2]. cbv zeta in IH1, IH2.
    split; intros key raw [Heq | Hin] En; eauto.
    + injection Heq as -> ->. apply He. subst r.
      rewrite (processEntry_text_unreadable net leadId unreadable key raw acc w En).
      simpl. apply in_or_app. right. left. reflexivity.
    + injection Heq as -> ->. subst r.
      destruct (processEntry_cases net leadId ∅ key raw acc w)
        as [[_ Hp] | [[E _] | [E _]]]; try congruence.
      rewrite Hp in Hv, He |- *.
      destruct (applyValue_pushed_key net key raw (Number key) acc w)
        as [[vals Hpush] | (e & Hpush & Hnf & Hf)];
        rewrite Hpush in Hv, He |- *.
      * left. exists vals. apply Hv. simpl.
        apply in_or_app. right. left. reflexivity.
      * right. exists e. split; [| auto]. apply He. simpl.
        apply in_or_app. right. left. reflexivity.
Qed.
End NoSnapshotBatch.

(** C9 as stated fails: the first read of the lead fails, the read made by
    the search succeeds, and the key "City" is resolved and written. *)
Lemma failed_first_read_does_not_lose_names :
  leadFetchFails (get_lead flakyNet 0)
  /\ isNaN (Number "City") = true
  /\ updateLeadCustomFields flakyNet (Int 42) [("City", "cali")] world0
     = (mkOutcome true (Some 1%nat) None None,
        mkWorld 2 1
          [[mkPayloadEntry (Int 501) [mkFieldValue "Cali" None (Some (Int 33))]]]).
Proof. vm_compute. repeat split. Qed.

(* ================================================================== *)
(** ** The example scenarios of the design document *)
(* ================================================================== *)

(** A value that matches no option is an error that lists the options. *)
Example scenario_unmatched_value :
  fst (updateLeadCustomFields steadyNet (Int 42) [("City", "Cartagena")] world0)
  = mkOutcome false (Some O)
      (Some [mkFieldError "City"
               (InvalidSelectValue "Cartagena" (inl "City")
                  "Bogota, Medellin, Cali" false)])
      (Some NoFieldsMapped).
Proof. vm_compute. reflexivity. Qed.

(** A numeric key unknown to the snapshot and to the catalog is written
    as free text. *)
Example scenario_unknown_numeric_key :
  updateLeadCustomFields steadyNet (Int 42) [("9999", "some text")] world0
  = (mkOutcome true (Some 1%nat) None None,
     mkWorld 1 1
       [[mkPayloadEntry (Int 9999) [mkFieldValue "some text" None None]]]).
Proof. vm_compute. reflexivity. Qed.

(** A batch that succeeds in part: one write, carrying what resolved. *)
Example scenario_partial_batch :
  updateLeadCustomFields steadyNet (Int 42)
    [("Nombre", "Juan"); ("City", "Cartagena")] world0
  = (mkOutcome true (Some 1%nat)
       (Some [mkFieldError "City"
                (InvalidSelectValue "Cartagena" (inl "City")
                   "Bogota, Medellin, Cali" false)])
       None,
     mkWorld 3 2
       [[mkPayloadEntry (Int 610) [mkFieldValue "Juan" None None]]]).
Proof. vm_compute. reflexivity. Qed.

(* ================================================================== *)
(** ** Strings of the matcher *)
(* ================================================================== *)

Lemma startsWith_refl s : startsWith s s = true.
Proof.
  induction s as [| c s IH]; simpl; [reflexivity |].
  rewrite Ascii.eqb_refl. exact IH.
Qed.

Lemma includes_refl s : includes s s = true.
Proof. destruct s; simpl; rewrite ?Ascii.eqb_refl, ?startsWith_refl; reflexivity. Qed.

Lemma includes_empty s : includes s "" = true.
Proof. destruct s; reflexivity. Qed.

Lemma lowerChar_idem c : lowerChar (lowerChar c) = lowerChar c.
Proof. destruct c as [[] [] [] [] [] [] [] []]; reflexivity. Qed.

Lemma isSpace_lowerChar c : isSpace (lowerChar c) = isSpace c.
Proof. destruct c as [[] [] [] [] [] [] [] []]; reflexivity. Qed.

Lemma toLowerCase_idem s : toLowerCase (toLowerCase s) = toLowerCase s.
Proof.
  induction s as [| c s IH]; simpl; [reflexivity |].
  rewrite lowerChar_idem, IH. reflexivity.
Qed.

Lemma toLowerCase_trimStart s :
  toLowerCase (trimStart s) = trimStart (toLowerCase s).
Proof.
  induction s as [| c s IH]; simpl; [reflexivity |].
  rewrite isSpace_lowerChar. destruct (isSpace c); [exact IH | reflexivity].
Qed.

Lemma isEmpty_toLowerCase s : isEmpty (toLowerCase s) = isEmpty s.
Proof. destruct s; reflexivity. Qed.

Lemma toLowerCase_trimEnd s :
  toLowerCase (trimEnd s) = trimEnd (toLowerCase s).
Proof.
  induction s as [| c s IH]; simpl; [reflexivity |].
  rewrite isSpace_lowerChar, <- IH, isEmpty_toLowerCase.
  destruct (isSpace c && isEmpty (trimEnd s)); reflexivity.
Qed.

Lemma toLowerCase_trim s : toLowerCase (trim s) = trim (toLowerCase s).
Proof. unfold trim. rewrite toLowerCase_trimEnd, toLowerCase_trimStart. reflexivity. Qed.

Lemma trimEnd_idem s : trimEnd (trimEnd s) = trimEnd s.
Proof.
  induction s as [| c s IH]; simpl; [reflexivity |].
  destruct (isSpace c && isEmpty (trimEnd s)) eqn:E; [reflexivity |].
  simpl. rewrite IH, E. reflexivity.
Qed.

Lemma headIsSpace_trimStart s : headIsSpace (trimStart s) = false.
Proof.
  induction s as [| c s IH]; simpl; [reflexivity |].
  destruct (isSpace c) eqn:E; [exact IH | simpl; exact E].
Qed.

Lemma trimStart_fixed s : headIsSpace s = false -> trimStart s = s.
Proof. destruct s as [| c s]; simpl; [reflexivity | intros ->; reflexivity]. Qed.

Lemma headIsSpace_trimEnd s :
  headIsSpace s = false -> headIsSpace (trimEnd s) = false.
Proof.
  destruct s as [| c s]; simpl; [reflexivity |]. intros E. rewrite E. simpl.
  exact E.
Qed.

Lemma trim_idem s : trim (trim s) = trim s.
Proof.
  unfold trim.
  rewrite (trimStart_fixed (trimEnd (trimStart s))).
  - apply trimEnd_idem.
  - apply headIsSpace_trimEnd, headIsSpace_trimStart.
Qed.

Lemma searchValue_toLowerCase raw : searchValue (toLowerCase raw) = searchValue raw.
Proof. unfold searchValue. rewrite toLowerCase_idem. reflexivity. Qed.

Lemma searchValue_trim raw : searchValue (trim raw) = searchValue raw.
Proof. unfold searchValue. rewrite toLowerCase_trim, trim_idem. reflexivity. Qed.

(** The callback reads the caller's text through [searchValue] only. *)
Lemma optionMatches_searchValue raw1 raw2 o :
  searchValue raw1 = searchValue raw2 ->
  optionMatches raw1 o = optionMatches raw2 o.
Proof.
  intros H.
  unfold optionMatches, exactRule, containsRule, normalizedContainsRule,
    wordRule, searchWords, normalizedSearch.
  rewrite H. reflexivity.
Qed.

Lemma matchOption_searchValue raw1 raw2 opts :
  searchValue raw1 = searchValue raw2 ->
  matchOption raw1 opts = matchOption raw2 opts.
Proof.
  intros H. unfold matchOption.
  induction opts as [| o opts IH]; simpl; [reflexivity |].
  rewrite (optionMatches_searchValue raw1 raw2 o H), IH. reflexivity.
Qed.

(** X1: a value that is empty, or white space only, is contained in every
    option value, so on a select field it is matched to the first option
    of the list, which is then written. *)
Theorem blank_value_selects_first_option
        (net : Transport) (key raw : string) (fid : number)
        (acc : Acc) (w : World) (o : SelectOption) (rest : list SelectOption) :
  searchValue raw = "" ->
  or_success (fst (getSelectFieldOptions net fid w)) = true ->
  options (fst (getSelectFieldOptions net fid w)) = Some (o :: rest) ->
  matchOption raw (o :: rest) = Some o
  /\ fst (applyValue net key raw fid acc w)
     = pushValue acc
         (mkPayloadEntry fid
            [mkFieldValue (opt_value o) None (Some (opt_enum_id o))]).
Proof.
  intros Hb Hs Ho.
  assert (Hm : matchOption raw (o :: rest) = Some o).
  { unfold matchOption. simpl.
    assert (Hc : containsRule raw o = true).
    { unfold containsRule. rewrite Hb, includes_empty. reflexivity. }
    unfold optionMatches. rewrite Hc.
    destruct (exactRule raw o); reflexivity. }
  split; [exact Hm |].
  rewrite (applyValue_matched net key raw fid acc w (o :: rest) o Hs Ho Hm).
  reflexivity.
Qed.

Lemma blank_value_selects_first_option_witness :
  fst (applyValue steadyNet "501" "   " (Int 501) (mkAcc [] []) world0)
  = mkAcc [mkPayloadEntry (Int 501) [mkFieldValue "Bogota" None (Some (Int 31))]]
      [].
Proof.
  refine (proj2 (blank_value_selects_first_option steadyNet "501" "   "
                   (Int 501) (mkAcc [] []) world0
                   (mkSelectOption "Bogota" (Int 31) (Some (Int 1)))
                   [mkSelectOption "Medellin" (Int 32) (Some (Int 2));
                    mkSelectOption "Cali" (Int 33) (Some (Int 3))]
                   _ _ _));
    reflexivity.
Defined.

(** X2: the exact rule never decides a match on its own.  Equal strings
    contain each other, so an option that passes the first [if] of the
    callback passes the second or the third as well, and the callback is
    the disjunction of the three containment rules. *)
Theorem exact_rule_is_subsumed (raw : string) (o : SelectOption) :
  optionMatches raw o
  = containsRule raw o || normalizedContainsRule raw o || wordRule raw o.
Proof.
  unfold optionMatches.
  destruct (exactRule raw o) eqn:Ee.
  - unfold exactRule in Ee. apply orb_true_iff in Ee.
    destruct Ee as [E | E]; apply String.eqb_eq in E.
    + unfold containsRule. rewrite E, includes_refl. reflexivity.
    + unfold normalizedContainsRule. rewrite E, includes_refl.
      rewrite orb_true_r. reflexivity.
  - destruct (containsRule raw o); [reflexivity |].
    destruct (normalizedContainsRule raw o); [reflexivity |].
    destruct (wordRule raw o); reflexivity.
Qed.

(** X3: the matcher does not see the case of the caller's text nor the
    white space around it: lower-casing or trimming the text beforehand
    gives the same option, or the same failure. *)
Theorem matcher_ignores_case_and_outer_space
        (raw : string) (opts : list SelectOption) :
  matchOption (toLowerCase raw) opts = matchOption raw opts
  /\ matchOption (trim raw) opts = matchOption raw opts.
Proof.
  split; apply matchOption_searchValue.
  - apply searchValue_toLowerCase.
  - apply searchValue_trim.
Qed.

(* ================================================================== *)
(** ** The options lookup *)
(* ================================================================== *)

Lemma insert_sorted_perm {A} (cmp : A -> A -> comparison) (x : A) l :
  Permutation (insert_sorted cmp x l) (x :: l).
Proof.
  induction l as [| y l IH]; simpl; [reflexivity |].
  destruct (cmp x y); try reflexivity.
  rewrite IH. apply perm_swap.
Qed.

Lemma sort_perm {A} (cmp : A -> A -> comparison) l :
  Permutation (sort cmp l) l.
Proof.
  unfold sort. induction l as [| x l IH]; simpl; [reflexivity |].
  rewrite insert_sorted_perm, IH. reflexivity.
Qed.

Section InsertionSort.
Context {A : Type} (cmp : A -> A -> comparison) (R : A -> A -> Prop).
Hypothesis below : forall x y, cmp x y <> Gt -> R x y.
Hypothesis above : forall x y, cmp x y = Gt -> R y x.

Lemma HdRel_insert_sorted y x l :
  HdRel R y l -> R y x -> HdRel R y (insert_sorted cmp x l).
Proof.
  intros Hl Hx. destruct l as [| z l]; simpl; [constructor; exact Hx |].
  destruct (cmp x z); constructor; try exact Hx.
  inversion Hl; assumption.
Qed.

Lemma insert_sorted_Sorted x l :
  Sorted R l -> Sorted R (insert_sorted cmp x l).
Proof.
  induction l as [| y l IH]; simpl; intros Hs.
  - repeat constructor.
  - apply Sorted_inv in Hs. destruct Hs as [Hs Hh].
    destruct (cmp x y) eqn:E.
    + constructor; [constructor; assumption |].
      constructor. apply below. congruence.
    + constructor; [constructor; assumption |].
      constructor. apply below. congruence.
    + constructor; [apply IH; exact Hs |].
      apply HdRel_insert_sorted; [exact Hh | apply above; exact E].
Qed.

Lemma sort_Sorted l : Sorted R (sort cmp l).
Proof.
  unfold sort. induction l as [| x l IH]; simpl; [constructor |].
  apply insert_sorted_Sorted. exact IH.
Qed.
End InsertionSort.

Lemma sub_sign_antisym x y : sub_sign x y = Gt -> sub_sign y x = Lt.
Proof.
  assert (Hz : forall a b : Z, (a ?= b) = Gt -> (b ?= a) = Lt).
  { intros a b H. rewrite Z.compare_antisym, H. reflexivity. }
  destruct x as [| [] | a | a e], y as [| [] | b | b f]; simpl;
    try discriminate; try reflexivity;
    unfold compare_fin; simpl fst; simpl snd; apply Hz.
Qed.

Lemma compareOptions_below net a b :
  compareOptions net a b <> Gt -> sortOrdered a b.
Proof.
  unfold compareOptions, sortOrdered.
  destruct (opt_sort a), (opt_sort b); auto.
Qed.

Lemma compareOptions_above net a b :
  compareOptions net a b = Gt -> sortOrdered b a.
Proof.
  unfold compareOptions, sortOrdered.
  destruct (opt_sort a) as [x |], (opt_sort b) as [y |]; auto.
  intros H. rewrite (sub_sign_antisym x y H). discriminate.
Qed.

(** What a successful lookup is made of. *)
Lemma getSelectFieldOptions_success net fid w :
  or_success (fst (getSelectFieldOptions net fid w)) = true ->
  exists fields f,
    get_custom_fields net (catalog_gets w) = Returns (Some fields)
    /\ List.find (fun f => strict_eq (def_id f) fid)
         (List.filter hasEnums fields) = Some f
    /\ (def_type f = "select" \/ def_type f = "multiselect")
    /\ fst (getSelectFieldOptions net fid w)
       = mkOptionsResult true fid (Some (def_name f)) (def_code f)
           (Some (def_type f))
           (match sort (compareOptions net)
                    (List.map optionOfEnum
                       (match def_enums f with Some l => l | None => [] end))
            with [] => None | o :: os => Some (o :: os) end)
           None.
Proof.
  unfold getSelectFieldOptions, bind, getLeadCustomFieldsMetadata.
  destruct (get_custom_fields net (catalog_gets w)) as [sc msg | [fs |]];
    simpl; try discriminate.
  destruct (List.find (fun f => strict_eq (def_id f) fid) (List.filter hasEnums fs))
    as [f |] eqn:Ef; simpl; [| discriminate].
  destruct (String.eqb (def_type f) "select") eqn:E1;
    destruct (String.eqb (def_type f) "multiselect") eqn:E2; simpl;
    try discriminate; intros _; exists fs, f;
    (split; [reflexivity | split; [exact Ef | split]]);
    try reflexivity; rewrite ?String.eqb_eq in *; auto;
    destruct (sort (compareOptions net) _); reflexivity.
Qed.

(** X4: the options a lookup returns are the enums of the definition it
    found in the catalog, each once (a permutation), and two consecutive
    options that both carry a sort number are in the order of these
    numbers. *)
Theorem options_are_the_enums_in_sort_order
        (net : Transport) (fid : number) (w : World) :
  or_success (fst (getSelectFieldOptions net fid w)) = true ->
  exists fields f es opts,
    get_custom_fields net (catalog_gets w) = Returns (Some fields)
    /\ List.find (fun f => strict_eq (def_id f) fid)
         (List.filter hasEnums fields) = Some f
    /\ def_enums f = Some es
    /\ options (fst (getSelectFieldOptions net fid w)) = Some opts
    /\ Permutation opts (List.map optionOfEnum es)
    /\ Sorted sortOrdered opts.
Proof.
  intros Hs.
  destruct (getSelectFieldOptions_success net fid w Hs)
    as (fields & f & Hr & Hf & _ & Heq).
  pose proof (find_some _ _ Hf) as [Hin _].
  apply filter_In in Hin. destruct Hin as [_ He].
  unfold hasEnums in He.
  destruct (def_enums f) as [[| e es] |] eqn:Ee; try discriminate.
  rewrite Heq. cbn [options].
  pose proof (sort_perm (compareOptions net) (List.map optionOfEnum (e :: es)))
    as Hp.
  pose proof (sort_Sorted (compareOptions net) sortOrdered
                (compareOptions_below net) (compareOptions_above net)
                (List.map optionOfEnum (e :: es))) as Hsd.
  destruct (sort (compareOptions net) (List.map optionOfEnum (e :: es)))
    as [| o os] eqn:Eo.
  - apply Permutation_nil in Hp. discriminate.
  - exists fields, f, (e :: es), (o :: os). auto 10.
Qed.

Lemma options_are_the_enums_in_sort_order_witness :
  exists fields f es opts,
    get_custom_fields steadyNet (catalog_gets world0) = Returns (Some fields)
    /\ List.find (fun f => strict_eq (def_id f) (Int 700))
         (List.filter hasEnums fields) = Some f
    /\ def_enums f = Some es
    /\ options (fst (getSelectFieldOptions steadyNet (Int 700) world0)) = Some opts
    /\ Permutation opts (List.map optionOfEnum es)
    /\ Sorted sortOrdered opts.
Proof.
  apply (options_are_the_enums_in_sort_order steadyNet (Int 700) world0).
  reflexivity.
Defined.

(** X5: the lookup succeeds exactly when the first definition of the
    catalog that has enums and that id is of type select or multiselect;
    a success always carries at least one option and the name of the
    field, so the caller's test [options.length > 0] cannot fail then. *)
Theorem lookup_succeeds_iff_select_with_enums
        (net : Transport) (fid : number) (w : World) :
  (or_success (fst (getSelectFieldOptions net fid w)) = true <->
   exists fields f,
     get_custom_fields net (catalog_gets w) = Returns (Some fields)
     /\ List.find (fun f => strict_eq (def_id f) fid)
          (List.filter hasEnums fields) = Some f
     /\ (def_type f = "select" \/ def_type f = "multiselect"))
  /\ (or_success (fst (getSelectFieldOptions net fid w)) = false
      \/ exists o os name,
           options (fst (getSelectFieldOptions net fid w)) = Some (o :: os)
           /\ fieldName (fst (getSelectFieldOptions net fid w)) = Some name).
Proof.
  split; [split |].
  - intros Hs.
    destruct (getSelectFieldOptions_success net fid w Hs)
      as (fields & f & Hr & Hf & Ht & _).
    exists fields, f. auto.
  - intros (fields & f & Hr & Hf & Ht).
    unfold getSelectFieldOptions, bind, getLeadCustomFieldsMetadata.
    rewrite Hr. simpl. rewrite Hf.
    destruct Ht as [-> | ->]; reflexivity.
  - destruct (or_success (fst (getSelectFieldOptions net fid w))) eqn:Hs;
      [right | left; reflexivity].
    destruct (getSelectFieldOptions_success net fid w Hs)
      as (fields & f & Hr & Hf & _ & Heq).
    pose proof (find_some _ _ Hf) as [Hin _].
    apply filter_In in Hin. destruct Hin as [_ He].
    unfold hasEnums in He.
    destruct (def_enums f) as [[| e es] |] eqn:Ee; try discriminate.
    rewrite Heq. cbn [options fieldName].
    pose proof (sort_perm (compareOptions net)
                  (List.map optionOfEnum (e :: es))) as Hp.
    destruct (sort (compareOptions net) (List.map optionOfEnum (e :: es)))
      as [| o os].
    + apply Permutation_nil in Hp. discriminate.
    + exists o, os, (def_name f). auto.
Qed.

(* ================================================================== *)
(** ** Reading the lead and searching its fields *)
(* ================================================================== *)

Lemma getLeadCustomFields_read net leadId w lead :
  is_positive_integer leadId = true ->
  get_lead net (lead_gets w) = Returns (Some lead) ->
  getLeadCustomFields net leadId w
  = (mkCustomFieldsResult true
       (Some (match custom_fields_values lead with Some l => l | None => [] end))
       None,
     tickLead w).
Proof.
  intros Hv Hr. unfold getLeadCustomFields, bind, getLead, validLeadId.
  rewrite Hv. simpl. rewrite Hr. reflexivity.
Qed.

(** X6: [getLeadCustomFields] makes no request for a lead id that is not
    a positive integer and fails; otherwise it makes exactly one, succeeds
    exactly when the reply carries a lead, and then lists the
    [custom_fields_values] of that lead, or nothing when the lead has
    none. *)
Theorem lead_fields_read_once_or_not_at_all
        (net : Transport) (leadId : number) (w : World) :
  let r := fst (getLeadCustomFields net leadId w) in
  let w' := snd (getLeadCustomFields net leadId w) in
  (is_positive_integer leadId = false
   /\ w' = w /\ cf_success r = false /\ customFields r = None)
  \/ (is_positive_integer leadId = true
      /\ w' = tickLead w
      /\ ((exists lead,
              get_lead net (lead_gets w) = Returns (Some lead)
              /\ cf_success r = true
              /\ customFields r
                 = Some (match custom_fields_values lead with
                         | Some l => l
                         | None => []
                         end))
          \/ (leadFetchFails (get_lead net (lead_gets w))
              /\ cf_success r = false /\ customFields r = None))).
Proof.
  cbv zeta. unfold getLeadCustomFields, bind, getLead, validLeadId.
  destruct (is_positive_integer leadId); [right | left; auto].
  split; [reflexivity |]. simpl.
  destruct (get_lead net (lead_gets w)) as [sc msg | [lead |]]; simpl;
    try destruct (is404 sc); simpl; split; try reflexivity;
    try (right; repeat split; reflexivity).
  left. exists lead. auto.
Qed.

Lemma searchLeadCustomField_read net leadId term w lead :
  is_positive_integer leadId = true ->
  get_lead net (lead_gets w) = Returns (Some lead) ->
  let cfs := match custom_fields_values lead with Some l => l | None => [] end in
  sr_field (fst (searchLeadCustomField net leadId term w))
  = match List.find (idMatches term) cfs with
    | Some f => Some f
    | None => List.find (textMatches term) cfs
    end
  /\ sr_success (fst (searchLeadCustomField net leadId term w))
     = match List.find (idMatches term) cfs with
       | Some f => true
       | None => match List.find (textMatches term) cfs with
                 | Some _ => true
                 | None => false
                 end
       end.
Proof.
  intros Hv Hr. cbv zeta. unfold searchLeadCustomField, bind.
  rewrite (getLeadCustomFields_read net leadId w lead Hv Hr). cbn [fst snd cf_success customFields].
  set (cfs := match custom_fields_values lead with Some l => l | None => [] end).
  assert (Hid : (if negb (isNaN (Number term))
                 then List.find (fun f => strict_eq (field_id f) (Number term)) cfs
                 else None)
                = List.find (idMatches term) cfs).
  { unfold idMatches. destruct (negb (isNaN (Number term))); simpl.
    - reflexivity.
    - induction cfs as [| f l IH]; simpl; [reflexivity | exact IH]. }
  rewrite Hid. destruct (List.find (idMatches term) cfs); [split; reflexivity |].
  fold (textMatches term).
  change (List.find (fun f => includes (lowerOrEmpty (field_name f)) (toLowerCase term)
                              || includes (lowerOrEmpty (field_code f)) (toLowerCase term)) cfs)
    with (List.find (textMatches term) cfs).
  destruct (List.find (textMatches term) cfs); split; reflexivity.
Qed.

(** X7: on a lead that could be read, the search succeeds exactly when a
    populated field has the term as its id or contains it, whatever the
    case, in its name or code; it returns the first field whose id is the
    term and, failing that, the first one whose name or code contains
    it. *)
Theorem search_finds_the_first_matching_field
        (net : Transport) (leadId : number) (term : string) (w : World)
        (lead : Lead) :
  is_positive_integer leadId = true ->
  get_lead net (lead_gets w) = Returns (Some lead) ->
  let cfs := match custom_fields_values lead with Some l => l | None => [] end in
  let r := fst (searchLeadCustomField net leadId term w) in
  (sr_success r = true <->
   exists f, In f cfs /\ (idMatches term f = true \/ textMatches term f = true))
  /\ (forall f, sr_field r = Some f ->
        In f cfs
        /\ ((idMatches term f = true
             /\ exists pre post,
                  cfs = (pre ++ f :: post)%list
                  /\ Forall (fun g => idMatches term g = false) pre)
            \/ (textMatches term f = true
                /\ Forall (fun g => idMatches term g = false) cfs
                /\ exists pre post,
                     cfs = (pre ++ f :: post)%list
                     /\ Forall (fun g => textMatches term g = false) pre))).
Proof.
  intros Hv Hr. cbv zeta.
  destruct (searchLeadCustomField_read net leadId term w lead Hv Hr)
    as [Hf Hs]. cbv zeta in Hf, Hs.
  set (cfs := match custom_fields_values lead with Some l => l | None => [] end)
    in *.
  assert (Hfirst : forall (p : CustomField -> bool) l f,
             List.find p l = Some f ->
             exists pre post, l = (pre ++ f :: post)%list
                              /\ Forall (fun g => p g = false) pre).
  { intros p l. induction l as [| x l IH]; simpl; intros f H; [discriminate |].
    destruct (p x) eqn:E.
    - injection H as <-. exists [], l. auto.
    - destruct (IH f H) as (pre & post & -> & Hp).
      exists (x :: pre), post. auto. }
  assert (Hnone : forall (p : CustomField -> bool) l,
             List.find p l = None -> Forall (fun g => p g = false) l).
  { intros p l H. apply List.Forall_forall. intros g Hg.
    apply (find_none _ _ H g Hg). }
  split.
  - rewrite Hs. split.
    + destruct (List.find (idMatches term) cfs) as [f |] eqn:E1.
      * intros _. apply find_some in E1. exists f. tauto.
      * destruct (List.find (textMatches term) cfs) as [f |] eqn:E2;
          [| discriminate].
        intros _. apply find_some in E2. exists f. tauto.
    + intros (f & Hin & [Hm | Hm]).
      * destruct (List.find (idMatches term) cfs) eqn:E1; [reflexivity |].
        rewrite (find_none _ _ E1 f Hin) in Hm. discriminate.
      * destruct (List.find (idMatches term) cfs) eqn:E1; [reflexivity |].
        destruct (List.find (textMatches term) cfs) eqn:E2; [reflexivity |].
        rewrite (find_none _ _ E2 f Hin) in Hm. discriminate.
  - intros f. rewrite Hf.
    destruct (List.find (idMatches term) cfs) as [g |] eqn:E1.
    + intros [= ->]. pose proof (find_some _ _ E1) as [Hin Hm].
      split; [exact Hin |]. left. split; [exact Hm |].
      apply (Hfirst _ _ _ E1).
    + intros E2. pose proof (find_some _ _ E2) as [Hin Hm].
      split; [exact Hin |]. right. split; [exact Hm |].
      split; [apply (Hnone _ _ E1) | apply (Hfirst _ _ _ E2)].
Qed.

Lemma search_finds_the_first_matching_field_witness :
  sr_success (fst (searchLeadCustomField steadyNet (Int 42) "nom" world0)) = true.
Proof.
  apply (proj1 (search_finds_the_first_matching_field steadyNet (Int 42) "nom"
                  world0 lead42 eq_refl eq_refl)).
  exists (mkCustomField (Int 610) (Some "Nombre") (Some "NAME") (Some "text")
            [mkFieldValue "Ana" None None]).
  split; [simpl; auto | right; reflexivity].
Defined.

(** X8: [getLeadCustomFieldInfo] only reads: it asks for the lead once,
    writes nothing, and succeeds exactly when a populated field of the
    lead has the given id, returning the first such field with its first
    value as current value. *)
Theorem field_info_reads_and_never_writes
        (net : Transport) (leadId fieldId : number) (w : World) (lead : Lead) :
  is_positive_integer leadId = true ->
  get_lead net (lead_gets w) = Returns (Some lead) ->
  let cfs := match custom_fields_values lead with Some l => l | None => [] end in
  let r := fst (getLeadCustomFieldInfo net leadId fieldId w) in
  snd (getLeadCustomFieldInfo net leadId fieldId w) = tickLead w
  /\ fi_field r = List.find (fun f => strict_eq (field_id f) fieldId) cfs
  /\ (fi_success r = true <->
      exists f, In f cfs /\ strict_eq (field_id f) fieldId = true)
  /\ (forall f, fi_field r = Some f ->
        currentValue r = match values f with
                         | v :: _ => Some (value v)
                         | [] => None
                         end).
Proof.
  intros Hv Hr. cbv zeta. unfold getLeadCustomFieldInfo, bind.
  rewrite (getLeadCustomFields_read net leadId w lead Hv Hr).
  cbn [fst snd cf_success customFields].
  set (cfs := match custom_fields_values lead with Some l => l | None => [] end).
  destruct (List.find (fun f => strict_eq (field_id f) fieldId) cfs)
    as [g |] eqn:E; cbn.
  - repeat split; auto.
    + intros _. apply find_some in E. exists g. exact E.
    + intros f [= <-]. reflexivity.
  - repeat split; auto; try discriminate.
    intros (f & Hin & Hm). rewrite (find_none _ _ E f Hin) in Hm. discriminate.
Qed.

Lemma field_info_reads_and_never_writes_witness :
  snd (getLeadCustomFieldInfo steadyNet (Int 42) (Int 610) world0)
  = tickLead world0
  /\ currentValue (fst (getLeadCustomFieldInfo steadyNet (Int 42) (Int 610) world0))
     = Some "Ana".
Proof.
  pose proof (field_info_reads_and_never_writes steadyNet (Int 42) (Int 610)
                world0 lead42 eq_refl eq_refl) as H.
  cbv zeta in H. destruct H as (H1 & _ & _ & H4).
  split; [exact H1 |].
  apply (H4 (mkCustomField (Int 610) (Some "Nombre") (Some "NAME") (Some "text")
               [mkFieldValue "Ana" None None])).
  reflexivity.
Defined.

(* ================================================================== *)
(** ** The name map and the resolver *)
(* ================================================================== *)

Lemma addNames_lookup (m : gmap string number) (f : CustomField) (k : string) :
  addNames m f !! k = if filedUnder k f then Some (field_id f) else m !! k.
Proof.
  unfold addNames, filedUnder.
  destruct (field_name f) as [n |], (field_code f) as [c |]; simpl;
    repeat match goal with
           | |- context [negb (isEmpty ?s)] => destruct (negb (isEmpty s)); simpl
           end;
    rewrite ?lookup_insert;
    repeat case_decide;
    repeat match goal with
           | |- context [String.eqb ?a ?b] =>
               destruct (String.eqb_spec a b); simpl
           end;
    congruence.
Qed.

Lemma fold_addNames_lookup (cfs : list CustomField) (k : string) :
  forall m : gmap string number,
    List.fold_left addNames cfs m !! k
    = match last (List.filter (filedUnder k) cfs) with
      | Some f => Some (field_id f)
      | None => m !! k
      end.
Proof.
  induction cfs as [| f cfs IH]; intros m; simpl; [reflexivity |].
  rewrite IH, addNames_lookup.
  destruct (filedUnder k f); [| reflexivity].
  rewrite last_cons.
  destruct (last (List.filter (filedUnder k) cfs)); reflexivity.
Qed.

(** X9: [nameToIdMap] files every populated field under its lower-cased
    name and under its lower-cased code, empty ones apart; looking a key up
    gives the id of the last field of the snapshot filed under it, and
    nothing when no field is. *)
Theorem name_map_keeps_the_last_field
        (existingFields : CustomFieldsResult) (cfs : list CustomField)
        (k : string) :
  cf_success existingFields = true ->
  customFields existingFields = Some cfs ->
  buildNameToIdMap existingFields !! k
  = field_id <$> last (List.filter (filedUnder k) cfs).
Proof.
  intros Hs Hc. unfold buildNameToIdMap. rewrite Hs, Hc.
  rewrite fold_addNames_lookup, lookup_empty.
  destruct (last (List.filter (filedUnder k) cfs)); reflexivity.
Qed.

Lemma name_map_keeps_the_last_field_witness :
  buildNameToIdMap
    (mkCustomFieldsResult true
       (Some [mkCustomField (Int 1) (Some "City") None None [];
              mkCustomField (Int 2) (Some "Town") (Some "CITY") None []])
       None) !! "city"
  = Some (Int 2).
Proof.
  apply (name_map_keeps_the_last_field
           (mkCustomFieldsResult true
              (Some [mkCustomField (Int 1) (Some "City") None None [];
                     mkCustomField (Int 2) (Some "Town") (Some "CITY") None []])
              None)
           [mkCustomField (Int 1) (Some "City") None None [];
            mkCustomField (Int 2) (Some "Town") (Some "CITY") None []]
           "city");
    reflexivity.
Defined.

Lemma filedUnder_textMatches key f :
  filedUnder (toLowerCase key) f = true -> textMatches key f = true.
Proof.
  unfold filedUnder, textMatches, lowerOrEmpty.
  intros H. apply orb_true_iff in H. apply orb_true_iff.
  destruct H as [H | H]; [left | right].
  - destruct (field_name f) as [n |]; [| discriminate].
    apply andb_true_iff in H. destruct H as [_ H].
    apply String.eqb_eq in H. rewrite H. apply includes_refl.
  - destruct (field_code f) as [c |]; [| discriminate].
    apply andb_true_iff in H. destruct H as [_ H].
    apply String.eqb_eq in H. rewrite H. apply includes_refl.
Qed.

(** X10: when the search reads the same lead as the read that built
    [nameToIdMap], the map adds nothing: a key that is no number resolves
    to the id of the first populated field whose name or code contains
    it, and to nothing when there is none - the look-up in the map, an
    exact comparison on the same names and codes, cannot find what the
    search did not. *)
Theorem name_map_adds_nothing_on_a_steady_snapshot
        (net : Transport) (leadId : number) (key : string)
        (w0 w : World) (lead : Lead) :
  is_positive_integer leadId = true ->
  isNaN (Number key) = true ->
  get_lead net (lead_gets w0) = Returns (Some lead) ->
  get_lead net (lead_gets w) = Returns (Some lead) ->
  fst (resolveFieldId net leadId
         (buildNameToIdMap (fst (getLeadCustomFields net leadId w0))) key w)
  = field_id
      <$> List.find (textMatches key)
            (match custom_fields_values lead with Some l => l | None => [] end).
Proof.
  intros Hv En H0 H1.
  rewrite (getLeadCustomFields_read net leadId w0 lead Hv H0). cbn [fst].
  unfold resolveFieldId, bind. rewrite En. cbn [negb].
  destruct (searchLeadCustomField_read net leadId key w lead Hv H1) as [Hf Hs].
  cbv zeta in Hf, Hs.
  set (cfs := match custom_fields_values lead with Some l => l | None => [] end)
    in *.
  assert (Hid : List.find (idMatches key) cfs = None).
  { unfold idMatches. rewrite En. simpl.
    clear. induction cfs as [| f l IH]; simpl; [reflexivity | exact IH]. }
  rewrite Hid in Hf, Hs.
  destruct (searchLeadCustomField net leadId key w) as [r w1]. cbn [fst] in *.
  rewrite Hs, Hf.
  destruct (List.find (textMatches key) cfs) as [f |] eqn:E; [reflexivity |].
  cbn [fst fmap option_fmap option_map].
  unfold buildNameToIdMap. cbn [cf_success customFields].
  rewrite fold_addNames_lookup, lookup_empty.
  destruct (last (List.filter (filedUnder (toLowerCase key)) cfs))
    as [g |] eqn:El; [| reflexivity].
  exfalso. apply last_Some in El. destruct El as [l' El].
  assert (Hin : In g (List.filter (filedUnder (toLowerCase key)) cfs)).
  { rewrite El. apply in_or_app. right. left. reflexivity. }
  apply filter_In in Hin. destruct Hin as [Hin Hg].
  apply filedUnder_textMatches in Hg.
  rewrite (find_none _ _ E g Hin) in Hg. discriminate.
Qed.

Lemma name_map_adds_nothing_on_a_steady_snapshot_witness :
  fst (resolveFieldId steadyNet (Int 42)
         (buildNameToIdMap (fst (getLeadCustomFields steadyNet (Int 42) world0)))
         "omb" (tickLead world0))
  = Some (Int 610).
Proof.
  apply (name_map_adds_nothing_on_a_steady_snapshot steadyNet (Int 42) "omb"
           world0 (tickLead world0) lead42);
    reflexivity.
Defined.

(* ================================================================== *)
(** ** More on the batch *)
(* ================================================================== *)

Section BatchFacts.
Variable net : Transport.
Variable leadId : number.

Lemma processEntry_pushed_key m key raw acc w :
  (exists e, fst (processEntry net leadId m (key, raw) acc w) = pushValue acc e)
  \/ (exists e, fst (processEntry net leadId m (key, raw) acc w) = pushError acc e
                /\ field e = key).
Proof.
  destruct (processEntry_cases net leadId m key raw acc w)
    as [[_ ->] | [(_ & fid & _ & _ & ->) | [_ ->]]].
  - destruct (applyValue_pushed_key net key raw (Number key) acc w)
      as [[v ->] | (e & -> & _ & He)]; eauto.
  - destruct (applyValue_pushed_key net key raw fid acc (leadRead leadId w))
      as [[v ->] | (e & -> & _ & He)]; eauto.
  - right. eexists. split; reflexivity.
Qed.

Lemma forEntries_error_fields m entries : forall acc w,
  exists s,
    List.map field (acc_errors (fst (forEntries net leadId m entries acc w)))
    = (List.map field (acc_errors acc) ++ s)%list
    /\ sublist s (List.map fst entries).
Proof.
  induction entries as [| [key raw] rest IH]; intros acc w.
  - exists []. simpl. rewrite app_nil_r. split; [reflexivity | constructor].
  - rewrite forEntries_cons.
    destruct (IH (fst (processEntry net leadId m (key, raw) acc w))
                 (snd (processEntry net leadId m (key, raw) acc w)))
      as (s & Hs & Hsub).
    destruct (processEntry_pushed_key m key raw acc w)
      as [[e He] | (e & He & Hk)]; rewrite He in Hs |- *; simpl in Hs.
    + exists s. split; [exact Hs |]. simpl. apply sublist_cons. exact Hsub.
    + exists (key :: s). split.
      * rewrite Hs, List.map_app. simpl. rewrite Hk, <- app_assoc. reflexivity.
      * simpl. apply sublist_skip. exact Hsub.
Qed.

Lemma processEntry_lead_gets m entry acc w :
  is_positive_integer leadId = true ->
  lead_gets (snd (processEntry net leadId m entry acc w))
  = (lead_gets w + if isTextKey entry then 1 else 0)%nat.
Proof.
  intros Hv. destruct entry as [key raw]. unfold isTextKey. cbn [fst].
  assert (Hl : lead_gets (leadRead leadId w) = S (lead_gets w)).
  { unfold leadRead. rewrite Hv. reflexivity. }
  destruct (processEntry_cases net leadId m key raw acc w)
    as [[En ->] | [(En & fid & _ & _ & ->) | [En ->]]];
    rewrite En, ?applyValue_world; cbn [snd tickCatalog lead_gets];
    rewrite ?Hl; lia.
Qed.

Lemma forEntries_lead_gets m entries :
  is_positive_integer leadId = true ->
  forall acc w,
    lead_gets (snd (forEntries net leadId m entries acc w))
    = (lead_gets w + List.length (List.filter isTextKey entries))%nat.
Proof.
  intros Hv. induction entries as [| entry rest IH]; intros acc w.
  - simpl. lia.
  - rewrite forEntries_cons, IH, processEntry_lead_gets by exact Hv.
    simpl. destruct (isTextKey entry); simpl; lia.
Qed.

Lemma updateLead_failure data w :
  lw_success (fst (updateLead net leadId data w)) = false ->
  lw_error (fst (updateLead net leadId data w)) <> None.
Proof.
  unfold updateLead.
  destruct (patch_lead net (List.length (patches w)) data) as [sc msg | [l |]];
    try destruct (is404 sc); simpl; congruence.
Qed.

(** With numeric keys only, neither the name map nor the reads of the lead
    have a say. *)
Lemma forEntries_numeric g m m' entries :
  forallb (fun e => negb (isTextKey e)) entries = true ->
  forall acc w,
    forEntries (withLeadReplies g net) leadId m' entries acc w
    = forEntries net leadId m entries acc w.
Proof.
  induction entries as [| [key raw] rest IH]; intros Hall acc w;
    [reflexivity |].
  simpl in Hall. apply andb_true_iff in Hall. destruct Hall as [Hk Hall].
  unfold isTextKey in Hk. cbn [fst] in Hk. apply negb_true_iff in Hk.
  rewrite !forEntries_cons.
  assert (Hp : processEntry (withLeadReplies g net) leadId m' (key, raw) acc w
               = processEntry net leadId m (key, raw) acc w).
  { destruct (processEntry_cases net leadId m key raw acc w)
      as [[_ ->] | [[E _] | [E _]]]; try congruence.
    destruct (processEntry_cases (withLeadReplies g net) leadId m' key raw acc w)
      as [[_ ->] | [[E _] | [E _]]]; try congruence.
    reflexivity. }
  rewrite Hp. apply IH. exact Hall.
Qed.
End BatchFacts.

(** X11: for a valid lead id, a batch reads the lead once at the start
    and once more for every key that is no number, the search fetching
    the lead anew each time; numeric keys cost no read. *)
Theorem lead_read_once_plus_once_per_name
        (net : Transport) (leadId : number)
        (fields : list (string * string)) (w : World) :
  is_positive_integer leadId = true ->
  lead_gets (snd (updateLeadCustomFields net leadId fields w))
  = (S (lead_gets w) + List.length (List.filter isTextKey fields))%nat.
Proof.
  intros Hv. rewrite updateLeadCustomFields_phases. cbv zeta.
  assert (Ha : lead_gets (snd (assemble net leadId fields w))
               = (S (lead_gets w)
                  + List.length (List.filter isTextKey fields))%nat).
  { unfold assemble, bind.
    pose proof (getLeadCustomFields_world net leadId w) as Hw.
    destruct (getLeadCustomFields net leadId w) as [ex w0].
    cbn [snd] in Hw. subst w0.
    rewrite forEntries_lead_gets by exact Hv.
    unfold leadRead. rewrite Hv. reflexivity. }
  destruct (assemble net leadId fields w) as [acc w1]. cbn [fst snd] in *.
  destruct (customFieldsValues acc) as [| p ps]; [exact Ha |].
  cbn [snd]. rewrite updateLead_world. exact Ha.
Qed.

Lemma lead_read_once_plus_once_per_name_witness :
  lead_gets (snd (updateLeadCustomFields steadyNet (Int 42)
                    [("501", "cali"); ("Nombre", "Juan"); ("City", "Cali")]
                    world0))
  = 3%nat.
Proof.
  apply (lead_read_once_plus_once_per_name steadyNet (Int 42)
           [("501", "cali"); ("Nombre", "Juan"); ("City", "Cali")] world0).
  reflexivity.
Defined.

(** X12: the errors of the outcome come in the order of the keys, each
    under the key that the caller wrote: the [field]s of the errors are a
    subsequence of the keys of the batch. *)
Theorem errors_follow_the_order_of_the_keys
        (net : Transport) (leadId : number)
        (fields : list (string * string)) (w : World) :
  let out := fst (updateLeadCustomFields net leadId fields w) in
  sublist
    (List.map field (match errors out with Some l => l | None => [] end))
    (List.map fst fields).
Proof.
  cbv zeta. rewrite updateLeadCustomFields_phases. cbv zeta.
  assert (Ha : sublist
                 (List.map field (acc_errors (fst (assemble net leadId fields w))))
                 (List.map fst fields)).
  { unfold assemble, bind.
    destruct (getLeadCustomFields net leadId w) as [ex w0].
    destruct (forEntries_error_fields net leadId (buildNameToIdMap ex) fields
                (mkAcc [] []) w0) as (s & Hs & Hsub).
    rewrite Hs. exact Hsub. }
  destruct (assemble net leadId fields w) as [acc w1]. cbn [fst snd] in *.
  assert (He : match errorsOrUndefined (acc_errors acc) with
               | Some l => l
               | None => []
               end = acc_errors acc)
    by (destruct (acc_errors acc); reflexivity).
  destruct (customFieldsValues acc) as [| p ps]; [exact Ha |].
  cbn [fst].
  destruct (negb (lw_success (fst (updateLead net leadId (p :: ps) w1))));
    cbn [errors]; rewrite He; exact Ha.
Qed.

Lemma outcome_flags_agree_aux
      (net : Transport) (leadId : number)
      (fields : list (string * string)) (w : World) :
  let out := fst (updateLeadCustomFields net leadId fields w) in
  (success out = true /\ (1 <= resolvedCount out)%nat /\ error out = None)
  \/ (success out = false /\ resolvedCount out = O /\ error out <> None).
Proof.
  cbv zeta. rewrite updateLeadCustomFields_phases. cbv zeta.
  destruct (assemble net leadId fields w) as [acc w1]. cbn [fst snd].
  destruct (customFieldsValues acc) as [| p ps].
  - right. cbn. repeat split. discriminate.
  - cbn [fst].
    pose proof (updateLead_failure net leadId (p :: ps) w1) as Hf.
    destruct (lw_success (fst (updateLead net leadId (p :: ps) w1))); cbn.
    + left. repeat split. lia.
    + right. repeat split. apply Hf. reflexivity.
Qed.


(** X14: the tool handler answers with the outcome only for a success,
    and then at least one field was written; every failure becomes an
    error response that carries the [error] text alone - it is always
    there - and none of the per-field errors. *)
Theorem handler_reports_error_text_only
        (net : Transport) (leadId : number)
        (fields : list (string * string)) (w : World) :
  let out := fst (updateLeadCustomFields net leadId fields w) in
  let resp := fst (handleUpdateLeadCustomFields net leadId fields w) in
  snd (handleUpdateLeadCustomFields net leadId fields w)
  = snd (updateLeadCustomFields net leadId fields w)
  /\ ((resp = ToolOk out /\ success out = true /\ (1 <= resolvedCount out)%nat)
      \/ (exists msg, resp = ToolError (Some msg)
                      /\ error out = Some msg /\ success out = false)).
Proof.
  cbv zeta. unfold handleUpdateLeadCustomFields, bind.
  pose proof (outcome_flags_agree_aux net leadId fields w) as H.
  destruct (updateLeadCustomFields net leadId fields w) as [out w'].
  cbn [fst snd] in *.
  destruct H as [(Hs & Hn & He) | (Hs & Hn & He)]; rewrite Hs; cbn.
  - split; [reflexivity |]. left. auto.
  - split; [reflexivity |]. right.
    destruct (error out) as [msg |]; [| congruence].
    exists msg. auto.
Qed.

(** X15: a batch whose keys are all numeric does not depend on what the
    reads of the lead return: with any other replies to them, the outcome
    and the requests are the same. *)
Theorem numeric_batch_ignores_the_snapshot
        (net : Transport) (g : nat -> Reply Lead) (leadId : number)
        (fields : list (string * string)) (w : World) :
  forallb (fun e => negb (isTextKey e)) fields = true ->
  updateLeadCustomFields (withLeadReplies g net) leadId fields w
  = updateLeadCustomFields net leadId fields w.
Proof.
  intros Hall. unfold updateLeadCustomFields, bind.
  pose proof (getLeadCustomFields_world net leadId w) as H1.
  pose proof (getLeadCustomFields_world (withLeadReplies g net) leadId w) as H2.
  destruct (getLeadCustomFields net leadId w) as [ex1 w1].
  destruct (getLeadCustomFields (withLeadReplies g net) leadId w) as [ex2 w2].
  cbn [snd] in H1, H2. subst w1 w2.
  rewrite (forEntries_numeric net leadId g (buildNameToIdMap ex1)
             (buildNameToIdMap ex2) fields Hall).
  reflexivity.
Qed.

Lemma numeric_batch_ignores_the_snapshot_witness :
  updateLeadCustomFields (withLeadReplies (fun _ => Throws None "down") steadyNet)
    (Int 42) [("501", "cali"); ("9999", "x")] world0
  = updateLeadCustomFields steadyNet (Int 42)
      [("501", "cali"); ("9999", "x")] world0.
Proof.
  apply (numeric_batch_ignores_the_snapshot steadyNet
           (fun _ => Throws None "down") (Int 42)
           [("501", "cali"); ("9999", "x")] world0).
  reflexivity.
Defined.

(* ================================================================== *)
(** ** Pagination *)
(* ================================================================== *)

Lemma mathMax_cases a b :
  isNaN a = false -> isNaN b = false ->
  (sub_sign a b = Lt /\ mathMax a b = b)
  \/ (sub_sign a b <> Lt /\ mathMax a b = a).
Proof.
  intros Ha Hb. unfold mathMax. rewrite Ha, Hb. simpl.
  destruct (sub_sign a b); [right | left | right]; split; congruence.
Qed.

Lemma mathMin_cases a b :
  isNaN a = false -> isNaN b = false ->
  (sub_sign a b = Gt /\ mathMin a b = b)
  \/ (sub_sign a b <> Gt /\ mathMin a b = a).
Proof.
  intros Ha Hb. unfold mathMin. rewrite Ha, Hb. simpl.
  destruct (sub_sign a b); [right | right | left]; split; congruence.
Qed.

Lemma mathMax_NaN a : mathMax a NaN = NaN.
Proof. unfold mathMax. rewrite orb_true_r. reflexivity. Qed.

Lemma mathMin_NaN a : mathMin a NaN = NaN.
Proof. unfold mathMin. rewrite orb_true_r. reflexivity. Qed.

Lemma atLeastOne x :
  isNaN x = false ->
  isNaN (mathMax (Int 1) x) = false /\ number_le (Int 1) (mathMax (Int 1) x).
Proof.
  intros Hx. unfold number_le.
  destruct (mathMax_cases (Int 1) x eq_refl Hx) as [[Hs ->] | [Hs ->]].
  - rewrite Hx, Hs. repeat split; discriminate.
  - repeat split; discriminate.
Qed.

Lemma atMost250 y :
  isNaN y = false -> number_le (Int 1) y ->
  number_le (Int 1) (mathMin (Int 250) y)
  /\ number_le (mathMin (Int 250) y) (Int 250).
Proof.
  intros Hy H1. unfold number_le.
  destruct (mathMin_cases (Int 250) y eq_refl Hy) as [[Hs ->] | [Hs ->]].
  - split; [exact H1 |]. rewrite Hy. repeat split.
    rewrite (sub_sign_antisym _ _ Hs). discriminate.
  - repeat split; discriminate.
Qed.

(** X16: whatever page and limit are asked for, NaN apart, the
    normalised page is at least 1 and the normalised limit lies between 1
    and 250; an absent page is 1 and an absent limit is 50. *)
Theorem normalized_pagination_is_in_bounds (params : option PaginationParams) :
  isNaN (pageOr params (Int 1)) = false ->
  isNaN (limitOr params (Int 50)) = false ->
  number_le (Int 1) (fst (normalizePagination params))
  /\ number_le (Int 1) (snd (normalizePagination params))
  /\ number_le (snd (normalizePagination params)) (Int 250)
  /\ normalizePagination None = (Int 1, Int 50).
Proof.
  intros Hp Hl. unfold normalizePagination. cbn [fst snd].
  destruct (atLeastOne _ Hp) as [_ H1].
  destruct (atLeastOne _ Hl) as [Hn H2].
  destruct (atMost250 _ Hn H2) as [H3 H4].
  repeat split; try assumption; apply H1 || apply H3 || apply H4.
Qed.

Lemma normalized_pagination_is_in_bounds_witness :
  number_le (Int 1)
    (fst (normalizePagination
            (Some (mkPaginationParams (Some (Int (-3))) (Some (Int 1000))))))
  /\ number_le
       (snd (normalizePagination
               (Some (mkPaginationParams (Some (Int (-3))) (Some (Int 1000))))))
       (Int 250).
Proof.
  pose proof (normalized_pagination_is_in_bounds
                (Some (mkPaginationParams (Some (Int (-3))) (Some (Int 1000))))
                eq_refl eq_refl) as H.
  split; [exact (proj1 H) | exact (proj1 (proj2 (proj2 H)))].
Defined.

(** X17: normalising is idempotent: what [normalizePagination] returns,
    handed to it again as page and limit, comes back unchanged (NaN
    included). *)
Theorem normalizing_pagination_twice_changes_nothing
        (params : option PaginationParams) :
  normalizePagination
    (Some (mkPaginationParams (Some (fst (normalizePagination params)))
                              (Some (snd (normalizePagination params)))))
  = normalizePagination params.
Proof.
  unfold normalizePagination. cbn [fst snd pageOr limitOr page limit].
  assert (Hmax : forall x, mathMax (Int 1) (mathMax (Int 1) x) = mathMax (Int 1) x).
  { intros x. destruct (isNaN x) eqn:Hx.
    - destruct x; try discriminate. reflexivity.
    - destruct (mathMax_cases (Int 1) x eq_refl Hx) as [[Hs E] | [Hs E]];
        rewrite E; [exact E | reflexivity]. }
  f_equal; [apply Hmax |].
  set (l := limitOr params (Int 50)).
  destruct (isNaN l) eqn:Hl.
  - destruct l; try discriminate. reflexivity.
  - destruct (atLeastOne l Hl) as [Hn _].
    destruct (mathMin_cases (Int 250) (mathMax (Int 1) l) eq_refl Hn)
      as [[Hs E] | [Hs E]]; rewrite E.
    + rewrite Hmax. exact E.
    + reflexivity.
Qed.

(** X18: a page and a limit that [listLeadsFiltersSchema] accepts - a
    positive integer, and a positive integer up to 250 - go through
    [normalizePagination] unchanged, so [listLeads] asks for exactly the
    page and the limit of its caller. *)
Theorem validated_pagination_is_left_alone (p l : Z) :
  1 <= p -> 1 <= l <= 250 ->
  normalizePagination (Some (mkPaginationParams (Some (Int p)) (Some (Int l))))
  = (Int p, Int l).
Proof.
  intros Hp [Hl1 Hl2]. unfold normalizePagination.
  cbn [pageOr limitOr page limit].
  assert (Hmax : forall z, 1 <= z -> mathMax (Int 1) (Int z) = Int z).
  { intros z Hz. unfold mathMax. simpl. unfold compare_fin. simpl fst. simpl snd.
    destruct (Z.compare_spec (1 * 1) (z * 1)); try reflexivity.
    - f_equal. lia.
    - lia. }
  rewrite !Hmax by assumption. f_equal.
  unfold mathMin. simpl. unfold compare_fin. simpl fst. simpl snd.
  destruct (Z.compare_spec (250 * 1) (l * 1)); try reflexivity.
  - f_equal. lia.
  - lia.
Qed.

Lemma validated_pagination_is_left_alone_witness :
  normalizePagination (Some (mkPaginationParams (Some (Int 3)) (Some (Int 250))))
  = (Int 3, Int 250).
Proof. apply (validated_pagination_is_left_alone 3 250); lia. Defined.

(* ================================================================== *)
(** ** Links of a lead *)
(* ================================================================== *)

(** X19: [linkLeadToContact] reads the links of the lead once and never
    unlinks.  When the read throws it fails without posting; when the
    contact is among the links it succeeds without posting; otherwise it
    posts one link to the contact, once, and succeeds exactly when that
    request does not throw. *)
Theorem contact_link_posted_only_when_missing
        (net : Links.Transport) (contactId : number) (w : Links.World) :
  let r := fst (Links.linkLeadToContact net contactId w) in
  let w' := snd (Links.linkLeadToContact net contactId w) in
  let body :=
    Links.OneObject
      (Links.mkLinkRequest (Links.mkLink contactId "contacts") None) in
  Links.links_gets w' = S (Links.links_gets w)
  /\ Links.unlink_posts w' = Links.unlink_posts w
  /\ ((exists sc msg,
          Links.get_links net (Links.links_gets w) = Throws sc msg
          /\ Links.link_posts w' = Links.link_posts w
          /\ Links.success r = false)
      \/ (exists reply,
             Links.get_links net (Links.links_gets w) = Returns reply
             /\ Links.isLinked contactId "contacts"
                  (match reply with Some l => l | None => [] end) = true
             /\ Links.link_posts w' = Links.link_posts w
             /\ Links.success r = true)
      \/ (exists reply,
             Links.get_links net (Links.links_gets w) = Returns reply
             /\ Links.isLinked contactId "contacts"
                  (match reply with Some l => l | None => [] end) = false
             /\ Links.link_posts w' = (Links.link_posts w ++ [body])%list
             /\ (Links.success r = true <->
                 exists u,
                   Links.post_link net (List.length (Links.link_posts w)) body
                   = Returns u))).
Proof.
  cbv zeta. unfold Links.linkLeadToContact.
  destruct (Links.get_links net (Links.links_gets w)) as [sc msg | reply].
  - cbn. repeat split. left. exists sc, msg. auto.
  - destruct (Links.isLinked contactId "contacts"
                (match reply with Some l => l | None => [] end)) eqn:El.
    + cbn. repeat split. right. left. exists reply. auto.
    + destruct (Links.post_link net (List.length (Links.link_posts w)) _)
        as [sc msg | u] eqn:Ep; cbn; repeat split;
        right; right; exists reply; repeat split; auto.
      * intros H; discriminate H.
      * intros [u H]; discriminate H.
      * intros _. exists u. reflexivity.
Qed.

(** X20: [linkProductToLead] does the same for a product: it posts only
    when the read of the links succeeded and lists no link of type
    catalog_elements to that product; what it posts is an array of one
    link that carries the quantity, 1 when none is given, and the catalog
    id. *)
Theorem product_link_posted_only_when_missing
        (net : Links.Transport) (productId catalogId : number)
        (quantity : option number) (w : Links.World) :
  let r := fst (Links.linkProductToLead net productId catalogId quantity w) in
  let w' := snd (Links.linkProductToLead net productId catalogId quantity w) in
  let body :=
    Links.ArrayOf
      [Links.mkLinkRequest (Links.mkLink productId "catalog_elements")
         (Some (Links.mkMetadata
                  (match quantity with Some q => q | None => Int 1 end)
                  catalogId))] in
  Links.links_gets w' = S (Links.links_gets w)
  /\ Links.unlink_posts w' = Links.unlink_posts w
  /\ ((Links.link_posts w' = Links.link_posts w
       /\ (Links.success r = true <->
           exists reply,
             Links.get_links net (Links.links_gets w) = Returns reply
             /\ Links.isLinked productId "catalog_elements"
                  (match reply with Some l => l | None => [] end) = true))
      \/ (exists reply,
             Links.get_links net (Links.links_gets w) = Returns reply
             /\ Links.isLinked productId "catalog_elements"
                  (match reply with Some l => l | None => [] end) = false
             /\ Links.link_posts w' = (Links.link_posts w ++ [body])%list
             /\ (Links.success r = true <->
                 exists u,
                   Links.post_link net (List.length (Links.link_posts w)) body
                   = Returns u))).
Proof.
  cbv zeta. unfold Links.linkProductToLead.
  destruct (Links.get_links net (Links.links_gets w)) as [sc msg | reply].
  - cbn. repeat split. left. split; [reflexivity |]. split.
    + intros H; discriminate H.
    + intros (reply & H & _); discriminate H.
  - destruct (Links.isLinked productId "catalog_elements"
                (match reply with Some l => l | None => [] end)) eqn:El.
    + cbn. repeat split. left. split; [reflexivity |]. split.
      * intros _. exists reply. auto.
      * reflexivity.
    + destruct (Links.post_link net (List.length (Links.link_posts w)) _)
        as [sc msg | u] eqn:Ep; cbn; repeat split;
        right; exists reply; repeat split; auto.
      * intros H; discriminate H.
      * intros [u H]; discriminate H.
      * intros _. exists u. reflexivity.
Qed.

(** X21: [unlinkProductFromLead] does not look at the links first: every
    call posts one unlink request for the product, and nothing else, and
    it succeeds exactly when that request does not throw. *)
Theorem unlink_always_posts_once
        (net : Links.Transport) (productId : number) (w : Links.World) :
  let r := fst (Links.unlinkProductFromLead net productId w) in
  let w' := snd (Links.unlinkProductFromLead net productId w) in
  let body :=
    Links.ArrayOf
      [Links.mkLinkRequest (Links.mkLink productId "catalog_elements") None] in
  Links.links_gets w' = Links.links_gets w
  /\ Links.link_posts w' = Links.link_posts w
  /\ Links.unlink_posts w' = (Links.unlink_posts w ++ [body])%list
  /\ (Links.success r = true <->
      exists u,
        Links.post_unlink net (List.length (Links.unlink_posts w)) body
        = Returns u).
Proof.
  cbv zeta. unfold Links.unlinkProductFromLead.
  destruct (Links.post_unlink net (List.length (Links.unlink_posts w)) _)
    as [sc msg | u]; cbn; repeat split.
  - intros H; discriminate H.
  - intros [u H]; discriminate H.
  - intros _. exists u. reflexivity.
Qed.

(** X22: the tool handler hands its arguments to [linkProductToLead] one
    place off: the caller's quantity (1 when absent or zero) is sent as
    the catalog id, and the quantity that is sent is the [metadata]
    argument, 1 when there is none. *)
Theorem handler_sends_quantity_as_catalog_id
        (net : Links.Transport) (args : Links.LinkProductArgs)
        (w : Links.World) :
  let w' := snd (Links.handleLinkProductToLead net args w) in
  Links.link_posts w' = Links.link_posts w
  \/ Links.link_posts w'
     = (Links.link_posts w
        ++ [Links.ArrayOf
              [Links.mkLinkRequest
                 (Links.mkLink (Links.arg_productId args) "catalog_elements")
                 (Some (Links.mkMetadata
                          (match Links.arg_metadata args with
                           | Some q => q
                           | None => Int 1
                           end)
                          (Links.quantityOrOne (Links.arg_quantity args))))]])%list.
Proof.
  cbv zeta. unfold Links.handleLinkProductToLead, Links.linkProductToLead.
  destruct (Links.get_links net (Links.links_gets w)) as [sc msg | reply];
    [left; reflexivity |].
  destruct (Links.isLinked _ _ _); [left; reflexivity |].
  destruct (Links.post_link net _ _); right; reflexivity.
Qed.

(* ================================================================== *)
(** ** Normal forms of the matcher *)
(* ================================================================== *)

Lemma lowerChar_blank : lowerChar " "%char = " "%char.
Proof. reflexivity. Qed.

Lemma toLowerCase_collapseSpaces b s :
  toLowerCase (collapseSpaces b s) = collapseSpaces b (toLowerCase s).
Proof.
  revert b. induction s as [| c s IH]; intros b; simpl; [reflexivity |].
  rewrite isSpace_lowerChar.
  destruct (isSpace c) eqn:E; [destruct b |]; simpl; rewrite ?IH; reflexivity.
Qed.

Lemma lowerChar_blanked c :
  lowerChar (if isWord (lowerChar c) || isSpace (lowerChar c)
             then lowerChar c else " "%char)
  = if isWord (lowerChar c) || isSpace (lowerChar c)
    then lowerChar c else " "%char.
Proof. destruct c as [[] [] [] [] [] [] [] []]; reflexivity. Qed.

Lemma toLowerCase_blankNonWord_lower s :
  toLowerCase (blankNonWord (toLowerCase s)) = blankNonWord (toLowerCase s).
Proof.
  induction s as [| c s IH]; simpl; [reflexivity |].
  rewrite lowerChar_blanked, IH. reflexivity.
Qed.

Lemma wordsAndSpaces_blankNonWord s : wordsAndSpaces (blankNonWord s) = true.
Proof.
  induction s as [| c s IH]; simpl; [reflexivity |].
  rewrite IH, andb_true_r.
  destruct (isWord c || isSpace c) eqn:E; [exact E | reflexivity].
Qed.

Lemma wordsAndSpaces_collapseSpaces b s :
  wordsAndSpaces s = true -> wordsAndSpaces (collapseSpaces b s) = true.
Proof.
  revert b. induction s as [| c s IH]; intros b; simpl; [reflexivity |].
  intros H. apply andb_true_iff in H. destruct H as [Hc Hs].
  destruct (isSpace c) eqn:E; [destruct b |].
  - apply IH, Hs.
  - change (wordsAndSpaces (collapseSpaces true s) = true). apply IH, Hs.
  - cbn [wordsAndSpaces]. rewrite E, Hc. apply IH, Hs.
Qed.

Lemma wordsAndSpaces_trimStart s :
  wordsAndSpaces s = true -> wordsAndSpaces (trimStart s) = true.
Proof.
  induction s as [| c s IH]; simpl; [reflexivity |].
  intros H. destruct (isSpace c) eqn:E.
  - apply andb_true_iff in H. apply IH, H.
  - cbn [wordsAndSpaces]. rewrite E. exact H.
Qed.

Lemma wordsAndSpaces_trimEnd s :
  wordsAndSpaces s = true -> wordsAndSpaces (trimEnd s) = true.
Proof.
  induction s as [| c s IH]; simpl; [reflexivity |].
  intros H. apply andb_true_iff in H. destruct H as [Hc Hs].
  destruct (isSpace c && isEmpty (trimEnd s)); [reflexivity |].
  cbn [wordsAndSpaces]. rewrite Hc. apply IH, Hs.
Qed.

Lemma blankNonWord_fixed s : wordsAndSpaces s = true -> blankNonWord s = s.
Proof.
  induction s as [| c s IH]; simpl; [reflexivity |].
  intros H. apply andb_true_iff in H. destruct H as [Hc Hs].
  rewrite Hc, (IH Hs). reflexivity.
Qed.

Lemma singleBlanks_collapseSpaces b s :
  singleBlanks b (collapseSpaces b s) = true.
Proof.
  revert b. induction s as [| c s IH]; intros b; simpl; [reflexivity |].
  destruct (isSpace c) eqn:E; [destruct b |]; simpl.
  - apply IH.
  - apply IH.
  - rewrite E. apply IH.
Qed.

Lemma singleBlanks_weaken s : singleBlanks true s = true -> singleBlanks false s = true.
Proof.
  destruct s as [| c s]; simpl; [reflexivity |].
  destruct (isSpace c); [| trivial].
  rewrite andb_false_r. discriminate.
Qed.

Lemma singleBlanks_head s : singleBlanks true s = true -> headIsSpace s = false.
Proof.
  destruct s as [| c s]; simpl; [reflexivity |].
  destruct (isSpace c); [| reflexivity].
  rewrite andb_false_r. discriminate.
Qed.

Lemma singleBlanks_trimStart s :
  singleBlanks false s = true -> singleBlanks false (trimStart s) = true.
Proof.
  destruct s as [| c s]; simpl; [reflexivity |].
  destruct (isSpace c) eqn:E; [| simpl; rewrite E; trivial].
  intros H. apply andb_true_iff in H. destruct H as [_ H].
  rewrite (trimStart_fixed s (singleBlanks_head s H)).
  apply singleBlanks_weaken, H.
Qed.

Lemma singleBlanks_trimEnd b s :
  singleBlanks b s = true -> singleBlanks b (trimEnd s) = true.
Proof.
  revert b. induction s as [| c s IH]; intros b; simpl; [reflexivity |].
  destruct (isSpace c) eqn:E; simpl.
  - intros H. apply andb_true_iff in H. destruct H as [H1 H2].
    destruct (isEmpty (trimEnd s)); [reflexivity |].
    simpl. rewrite E, H1. simpl. apply IH, H2.
  - intros H. simpl. rewrite E. apply IH, H.
Qed.

Lemma collapseSpaces_fixed b s :
  singleBlanks b s = true -> collapseSpaces b s = s.
Proof.
  revert b. induction s as [| c s IH]; intros b; simpl; [reflexivity |].
  destruct (isSpace c) eqn:E.
  - intros H. apply andb_true_iff in H. destruct H as [H1 H2].
    apply andb_true_iff in H1. destruct H1 as [Hc Hb].
    apply Ascii.eqb_eq in Hc. subst c.
    destruct b; [discriminate |]. rewrite (IH true H2). reflexivity.
  - intros H. rewrite (IH false H). reflexivity.
Qed.

(** X24: [normalize] is idempotent: its result is lower case, made of
    word characters and single blanks, with no white space at either end,
    and normalising it again changes nothing. *)
Theorem normalize_is_idempotent (s : string) :
  normalize (normalize s) = normalize s
  /\ toLowerCase (normalize s) = normalize s
  /\ wordsAndSpaces (normalize s) = true
  /\ singleBlanks false (normalize s) = true
  /\ trim (normalize s) = normalize s.
Proof.
  assert (Hl : toLowerCase (normalize s) = normalize s).
  { unfold normalize.
    rewrite toLowerCase_trim, toLowerCase_collapseSpaces,
      toLowerCase_blankNonWord_lower. reflexivity. }
  assert (Hw : wordsAndSpaces (normalize s) = true).
  { unfold normalize, trim.
    apply wordsAndSpaces_trimEnd, wordsAndSpaces_trimStart,
      wordsAndSpaces_collapseSpaces, wordsAndSpaces_blankNonWord. }
  assert (Hb : singleBlanks false (normalize s) = true).
  { unfold normalize, trim.
    apply singleBlanks_trimEnd, singleBlanks_trimStart,
      singleBlanks_collapseSpaces. }
  assert (Ht : trim (normalize s) = normalize s).
  { unfold normalize. apply trim_idem. }
  repeat split; try assumption.
  unfold normalize at 1.
  rewrite Hl, (blankNonWord_fixed _ Hw), (collapseSpaces_fixed _ _ Hb).
  exact Ht.
Qed.

(* ================================================================== *)
(** ** What a name resolves to *)
(* ================================================================== *)

Lemma fold_addNames_origin (cfs : list CustomField) (k : string) (v : number) :
  List.fold_left addNames cfs (∅ : gmap string number) !! k = Some v ->
  exists f, In f cfs /\ filedUnder k f = true /\ v = field_id f.
Proof.
  rewrite fold_addNames_lookup, lookup_empty.
  destruct (last (List.filter (filedUnder k) cfs)) as [g |] eqn:El;
    [| discriminate].
  intros [= <-]. apply last_Some in El. destruct El as [l' El].
  assert (Hin : In g (List.filter (filedUnder k) cfs)).
  { rewrite El. apply in_or_app. right. left. reflexivity. }
  apply filter_In in Hin. exists g. tauto.
Qed.

Lemma buildNameToIdMap_origin net leadId w0 k v :
  buildNameToIdMap (fst (getLeadCustomFields net leadId w0)) !! k = Some v ->
  exists f, listedAt net (lead_gets w0) f
            /\ filedUnder k f = true /\ v = field_id f.
Proof.
  unfold buildNameToIdMap.
  pose proof (getLeadCustomFields_fields net leadId w0) as Hf.
  destruct (getLeadCustomFields net leadId w0) as [r w1]. cbn [fst] in *.
  destruct (cf_success r), (customFields r) as [cfs |];
    try (rewrite lookup_empty; discriminate).
  destruct (Hf cfs eq_refl) as (lead & Hl & Hc).
  intros H. destruct (fold_addNames_origin cfs k v H) as (f & Hin & Hk & Hv).
  exists f. split; [| auto]. exists lead.
  destruct (custom_fields_values lead) as [l |]; subst cfs; [| destruct Hin].
  exists l. auto.
Qed.

Lemma searchLeadCustomField_text_found net leadId term w f :
  isNaN (Number term) = true ->
  sr_field (fst (searchLeadCustomField net leadId term w)) = Some f ->
  listedAt net (lead_gets w) f /\ textMatches term f = true.
Proof.
  intros En. unfold searchLeadCustomField, bind.
  pose proof (getLeadCustomFields_fields net leadId w) as Hf.
  destruct (getLeadCustomFields net leadId w) as [r w1]. cbn [fst] in Hf.
  destruct (cf_success r), (customFields r) as [cfs |]; simpl;
    try discriminate.
  destruct (Hf cfs eq_refl) as (lead & Hl & Hc).
  rewrite En. simpl.
  destruct (List.find (fun f => includes _ _ || _) cfs) as [g |] eqn:E2;
    simpl; [| discriminate].
  intros [= <-]. apply find_some in E2. destruct E2 as [Hin Hm].
  split; [| exact Hm]. exists lead.
  destruct (custom_fields_values lead) as [l |]; subst cfs; [| destruct Hin].
  exists l. auto.
Qed.

(** X23: a key that is no number never resolves to an id from nowhere.
    When its entry becomes a payload entry, the field id is that of a
    populated field of the lead: one that the search just read and whose
    name or code contains the key, or one that the first read listed under
    exactly that name or code. *)
Theorem name_resolves_to_a_populated_field
        (net : Transport) (leadId : number) (key raw : string)
        (acc : Acc) (w0 w : World) (e : PayloadEntry) :
  isNaN (Number key) = true ->
  fst (processEntry net leadId
         (buildNameToIdMap (fst (getLeadCustomFields net leadId w0)))
         (key, raw) acc w)
  = pushValue acc e ->
  exists f,
    cfv_field_id e = field_id f
    /\ ((listedAt net (lead_gets w) f /\ textMatches key f = true)
        \/ (listedAt net (lead_gets w0) f
            /\ filedUnder (toLowerCase key) f = true)).
Proof.
  intros En He.
  set (m := buildNameToIdMap (fst (getLeadCustomFields net leadId w0))) in *.
  destruct (processEntry_cases net leadId m key raw acc w)
    as [[E _] | [(_ & fid & Hr & _ & Hp) | [_ Hp]]]; [congruence | |].
  - rewrite Hp in He.
    assert (Hid : cfv_field_id e = fid).
    { destruct (applyValue_pushed net key raw fid acc (leadRead leadId w))
        as [[v Hv] | (e' & Hv & _)]; rewrite Hv in He.
      - injection He as He. apply app_inv_head in He. injection He as <-.
        reflexivity.
      - injection He as He1 He2. apply (f_equal (@List.length _)) in He2.
        rewrite length_app in He2. simpl in He2. lia. }
    rewrite Hid. clear Hp He Hid.
    unfold resolveFieldId, bind in Hr. rewrite En in Hr. cbn [negb] in Hr.
    pose proof (searchLeadCustomField_text_found net leadId key w) as Hs.
    destruct (searchLeadCustomField net leadId key w) as [r w1].
    cbn [fst] in *.
    destruct (sr_success r), (sr_field r) as [f |]; cbn [fst ret] in Hr.
    + injection Hr as <-. exists f. split; [reflexivity |]. left.
      apply (Hs f En eq_refl).
    + destruct (buildNameToIdMap_origin net leadId w0 _ _ Hr)
        as (g & Hl & Hk & ->). exists g. auto.
    + destruct (buildNameToIdMap_origin net leadId w0 _ _ Hr)
        as (g & Hl & Hk & ->). exists g. auto.
    + destruct (buildNameToIdMap_origin net leadId w0 _ _ Hr)
        as (g & Hl & Hk & ->). exists g. auto.
  - rewrite Hp in He. cbn [fst] in He. injection He as He1 He2.
    apply (f_equal (@List.length _)) in He1.
    rewrite length_app in He1. simpl in He1. lia.
Qed.

Lemma name_resolves_to_a_populated_field_witness :
  exists f,
    Int 610 = field_id f
    /\ ((listedAt steadyNet 1 f /\ textMatches "nombre" f = true)
        \/ (listedAt steadyNet 0 f
            /\ filedUnder (toLowerCase "nombre") f = true)).
Proof.
  apply (name_resolves_to_a_populated_field steadyNet (Int 42) "nombre" "Juan"
           (mkAcc [] []) world0 (tickLead world0)
           (mkPayloadEntry (Int 610) [mkFieldValue "Juan" None None]));
    reflexivity.
Defined.

(* ================================================================== *)
(** ** Writing an option back *)
(* ================================================================== *)

Lemma exactRule_own_value o : exactRule (opt_value o) o = true.
Proof.
  unfold exactRule, optValue, searchValue.
  rewrite String.eqb_refl. reflexivity.
Qed.

Lemma matchOption_some raw opts o :
  In o opts -> optionMatches raw o = true ->
  exists o', matchOption raw opts = Some o'.
Proof.
  unfold matchOption. intros Hin Hm.
  destruct (List.find (optionMatches raw) opts) as [o' |] eqn:E; [eauto |].
  rewrite (find_none _ _ E o Hin) in Hm. discriminate.
Qed.

(** X25: the value of an option, as the lookup returns it, is never
    refused: handed back for the same field it matches an option (itself
    or one listed before it), becomes a payload entry with an enum id,
    and records no error. *)
Theorem option_value_is_always_accepted
        (net : Transport) (key : string) (fid : number)
        (acc : Acc) (w : World) (opts : list SelectOption) (o : SelectOption) :
  or_success (fst (getSelectFieldOptions net fid w)) = true ->
  options (fst (getSelectFieldOptions net fid w)) = Some opts ->
  In o opts ->
  exists o',
    In o' opts
    /\ matchOption (opt_value o) opts = Some o'
    /\ fst (applyValue net key (opt_value o) fid acc w)
       = pushValue acc
           (mkPayloadEntry fid
              [mkFieldValue (opt_value o') None (Some (opt_enum_id o'))]).
Proof.
  intros Hs Ho Hin.
  destruct (matchOption_some (opt_value o) opts o Hin
              (exactRule_matches _ _ (exactRule_own_value o))) as [o' Hm].
  exists o'. split; [| split; [exact Hm |]].
  - apply matchOption_first_match in Hm.
    destruct Hm as (pre & post & -> & _). apply in_elt.
  - rewrite (applyValue_matched net key (opt_value o) fid acc w opts o' Hs Ho Hm).
    reflexivity.
Qed.

Lemma option_value_is_always_accepted_witness :
  exists o',
    In o' [notActive; active]
    /\ matchOption (opt_value active) [notActive; active] = Some o'
    /\ fst (applyValue steadyNet "700" (opt_value active) (Int 700)
              (mkAcc [] []) world0)
       = pushValue (mkAcc [] [])
           (mkPayloadEntry (Int 700)
              [mkFieldValue (opt_value o') None (Some (opt_enum_id o'))]).
Proof.
  apply (option_value_is_always_accepted steadyNet "700" (Int 700)
           (mkAcc [] []) world0 [notActive; active] active).
  - reflexivity.
  - reflexivity.
  - right. left. reflexivity.
Defined.

(* ================================================================== *)
(** ** The batch, entry by entry *)
(* ================================================================== *)

Section Turns.
Variable net : Transport.
Variable leadId : number.

Lemma forEntries_app m l1 : forall l2 acc w,
  forEntries net leadId m (l1 ++ l2) acc w
  = forEntries net leadId m l2
      (fst (forEntries net leadId m l1 acc w))
      (snd (forEntries net leadId m l1 acc w)).
Proof.
  induction l1 as [| x l1 IH]; intros l2 acc w; [reflexivity |].
  rewrite <- app_comm_cons, !forEntries_cons. apply IH.
Qed.

Lemma assemble_loop fields w :
  assemble net leadId fields w
  = forEntries net leadId
      (buildNameToIdMap (fst (getLeadCustomFields net leadId w)))
      fields (mkAcc [] []) (snd (getLeadCustomFields net leadId w)).
Proof.
  unfold assemble, bind.
  destruct (getLeadCustomFields net leadId w); reflexivity.
Qed.

(** What the turn of an entry pushes stays in the arrays to the end. *)
Lemma turn_stays m pre entry post acc0 w0 :
  let st := forEntries net leadId m pre acc0 w0 in
  let turn := processEntry net leadId m entry (fst st) (snd st) in
  let final := fst (forEntries net leadId m (pre ++ entry :: post) acc0 w0) in
  incl (customFieldsValues (fst turn)) (customFieldsValues final)
  /\ incl (acc_errors (fst turn)) (acc_errors final).
Proof.
  cbv zeta. rewrite forEntries_app, forEntries_cons.
  apply forEntries_incl.
Qed.

(** The field id of a payload entry is the number of the key, or what
    the resolver made of a key that is no number. *)
Lemma processEntry_pushed_id m key raw acc w e :
  fst (processEntry net leadId m (key, raw) acc w) = pushValue acc e ->
  (isNaN (Number key) = false /\ cfv_field_id e = Number key)
  \/ (isNaN (Number key) = true
      /\ fst (resolveFieldId net leadId m key w) = Some (cfv_field_id e)).
Proof.
  intros He.
  assert (Ha : forall fid w',
             fst (applyValue net key raw fid acc w') = pushValue acc e ->
             cfv_field_id e = fid).
  { intros fid w' H.
    destruct (applyValue_pushed net key raw fid acc w')
      as [[v Hv] | (e' & Hv & _)]; rewrite Hv in H.
    - injection H as H. apply app_inv_head in H. injection H as <-.
      reflexivity.
    - injection H as H1 H2. apply (f_equal (@List.length _)) in H2.
      rewrite length_app in H2. simpl in H2. lia. }
  destruct (processEntry_cases net leadId m key raw acc w)
    as [[En Hp] | [(En & fid & Hr & _ & Hp) | [En Hp]]]; rewrite Hp in He.
  - left. split; [exact En | apply (Ha _ _ He)].
  - right. split; [exact En |]. rewrite (Ha _ _ He). exact Hr.
  - cbn [fst] in He. injection He as H1 H2.
    apply (f_equal (@List.length _)) in H1.
    rewrite length_app in H1. simpl in H1. lia.
Qed.

(** Every payload entry was pushed by the turn of one entry. *)
Lemma forEntries_payload_origin m entries : forall acc w e,
  In e (customFieldsValues (fst (forEntries net leadId m entries acc w))) ->
  In e (customFieldsValues acc)
  \/ exists pre key raw post,
       entries = (pre ++ (key, raw) :: post)%list
       /\ fst (processEntry net leadId m (key, raw)
                 (fst (forEntries net leadId m pre acc w))
                 (snd (forEntries net leadId m pre acc w)))
          = pushValue (fst (forEntries net leadId m pre acc w)) e.
Proof.
  induction entries as [| [k v] rest IH]; intros acc w e H.
  - left. exact H.
  - rewrite forEntries_cons in H.
    destruct (IH _ _ _ H) as [Hin | (pre & key & raw & post & -> & Hp)].
    + destruct (processEntry_pushed_key net leadId m k v acc w)
        as [[e0 He0] | (e0 & He0 & _)]; rewrite He0 in Hin; simpl in Hin.
      * apply in_app_or in Hin. destruct Hin as [Hin | [<- | []]].
        -- left. exact Hin.
        -- right. exists [], k, v, rest. split; [reflexivity | exact He0].
      * left. exact Hin.
    + right. exists ((k, v) :: pre), key, raw, post.
      split; [reflexivity |]. rewrite forEntries_cons. exact Hp.
Qed.

(** The turn of a key that is no number, by what the resolver returns. *)
Lemma processEntry_text m key raw acc w :
  isNaN (Number key) = true ->
  processEntry net leadId m (key, raw) acc w
  = match fst (resolveFieldId net leadId m key w) with
    | Some fid =>
        if truthy fid
        then applyValue net key raw fid acc (leadRead leadId w)
        else (pushError acc (mkFieldError key (FieldNotFound key)),
              leadRead leadId w)
    | None =>
        (pushError acc (mkFieldError key (FieldNotFound key)),
         leadRead leadId w)
    end.
Proof.
  intros En. unfold processEntry, bind. cbn [fst snd].
  pose proof (resolveFieldId_text_world net leadId m key w En) as Hw.
  destruct (resolveFieldId net leadId m key w) as [[fid |] w1];
    cbn [fst snd] in *; subst w1.
  - destruct (truthy fid); [reflexivity |].
    unfold numericFallback; cbv zeta. rewrite En. reflexivity.
  - unfold numericFallback; cbv zeta. rewrite En. reflexivity.
Qed.

(** With an empty name map the search alone resolves a key that is no
    number, on the lead that it reads itself. *)
Lemma resolveFieldId_empty_map key w :
  isNaN (Number key) = true ->
  (cf_success (fst (getLeadCustomFields net leadId w)) = false ->
   fst (resolveFieldId net leadId ∅ key w) = None)
  /\ (forall cfs,
        cf_success (fst (getLeadCustomFields net leadId w)) = true ->
        customFields (fst (getLeadCustomFields net leadId w)) = Some cfs ->
        fst (resolveFieldId net leadId ∅ key w)
        = field_id <$> List.find (textMatches key) cfs).
Proof.
  intros En. unfold resolveFieldId, searchLeadCustomField, bind.
  rewrite En. cbn [negb].
  destruct (getLeadCustomFields net leadId w) as [r w1]. cbn [fst].
  split.
  - intros Hs. rewrite Hs. cbn. apply lookup_empty.
  - intros cfs Hs Hc. rewrite Hs, Hc.
    change (List.find (fun f => includes (lowerOrEmpty (field_name f)) (toLowerCase key)
                                || includes (lowerOrEmpty (field_code f)) (toLowerCase key)) cfs)
      with (List.find (textMatches key) cfs).
    destruct (List.find (textMatches key) cfs); cbn; [reflexivity |].
    apply lookup_empty.
Qed.

Lemma updateLead_success data w :
  lw_success (fst (updateLead net leadId data w)) = true ->
  lw_error (fst (updateLead net leadId data w)) = None.
Proof.
  unfold updateLead.
  destruct (patch_lead net (List.length (patches w)) data) as [sc msg | [l |]];
    try destruct (is404 sc); simpl; congruence.
Qed.
End Turns.

(** [Number] reads a numeral as JavaScript does: what a binary64 cannot
    hold is rounded to the nearest one, and what lies beyond the largest
    binary64 is an infinity, which is no positive integer. *)
Lemma Number_rounds_to_binary64 :
  Number "9007199254740993" = Int 9007199254740992
  /\ Number "610.00000000000000001" = Int 610
  /\ Number "0.1"
     = Frac 1000000000000000055511151231257827021181583404541015625 55
  /\ Number "0x20000000000001" = Int 9007199254740992
  /\ Number "1e400" = Infinity false
  /\ Number "-1e400" = Infinity true
  /\ isNaN (Number "1e400") = false
  /\ is_positive_integer (Number "1e400") = false.
Proof. vm_compute. repeat split. Qed.

Lemma steadyNet_ids_positive : snapshotIdsPositive steadyNet.
Proof.
  intros n lead cfs f H1 H2 H3. simpl in H1. injection H1 as <-.
  simpl in H2. injection H2 as <-.
  simpl in H3. destruct H3 as [<- | [<- | []]]; reflexivity.
Defined.

(** C8, as the code has it, entry by entry: every payload entry of the
    batch was pushed by the turn of one input entry, and what the turn of
    an entry pushes is in the payload.  Its field id is the number of the
    key when the key parses as a number, whatever its sign and whether or
    not it is whole; it is a positive integer when the key is no number
    (the id is then that of a field that the CRM lists on the lead, those
    being positive integers) or parses as a positive integer - whatever
    the other keys of the batch are. *)
Theorem field_ids_positive_for_names_and_positive_keys
        (net : Transport) (leadId : number)
        (fields : list (string * string)) (w : World) :
  snapshotIdsPositive net ->
  let m := buildNameToIdMap (fst (getLeadCustomFields net leadId w)) in
  let w1 := snd (getLeadCustomFields net leadId w) in
  let payload := customFieldsValues (fst (assemble net leadId fields w)) in
  (forall pre key raw post e,
      fields = (pre ++ (key, raw) :: post)%list ->
      let st := forEntries net leadId m pre (mkAcc [] []) w1 in
      fst (processEntry net leadId m (key, raw) (fst st) (snd st))
      = pushValue (fst st) e ->
      In e payload
      /\ (isNaN (Number key) = false -> cfv_field_id e = Number key)
      /\ (isNaN (Number key) = true
          \/ is_positive_integer (Number key) = true ->
          is_positive_integer (cfv_field_id e) = true))
  /\ (forall e,
        In e payload ->
        exists pre key raw post,
          fields = (pre ++ (key, raw) :: post)%list
          /\ let st := forEntries net leadId m pre (mkAcc [] []) w1 in
             fst (processEntry net leadId m (key, raw) (fst st) (snd st))
             = pushValue (fst st) e)
  /\ (Forall (fun e => isNaN (Number (fst e)) = true
                       \/ is_positive_integer (Number (fst e)) = true) fields ->
      Forall (fun e => is_positive_integer (cfv_field_id e) = true) payload).
Proof.
  intros Hpos. cbv zeta.
  assert (Hl : forall n f, listedAt net n f ->
                           is_positive_integer (field_id f) = true).
  { intros n f (lead & cfs & H1 & H2 & H3). apply (Hpos n lead cfs f H1 H2 H3). }
  pose proof (buildNameToIdMap_values net leadId
                (fun n => is_positive_integer n = true) w
                (fun f => Hl (lead_gets w) f)) as Hm.
  rewrite assemble_loop.
  set (m := buildNameToIdMap (fst (getLeadCustomFields net leadId w))) in *.
  set (w1 := snd (getLeadCustomFields net leadId w)).
  split; [| split].
  - intros pre key raw post e -> He.
    split; [| split].
    + destruct (turn_stays net leadId m pre (key, raw) post (mkAcc [] []) w1)
        as [Hin _].
      apply Hin. rewrite He. simpl. apply in_or_app. right. left. reflexivity.
    + intros En.
      destruct (processEntry_pushed_id net leadId m key raw _ _ e He)
        as [[_ H] | [E _]]; congruence.
    + intros Hk.
      destruct (processEntry_pushed_id net leadId m key raw _ _ e He)
        as [[En H] | [En Hr]].
      * rewrite H. destruct Hk as [Hk | Hk]; [congruence | exact Hk].
      * apply (resolveFieldId_text_holds net leadId
                 (fun n => is_positive_integer n = true) m key _ _ Hl Hm En Hr).
  - intros e He.
    destruct (forEntries_payload_origin net leadId m fields (mkAcc [] []) w1 e He)
      as [[] | H]. exact H.
  - intros Hall.
    pose proof (assemble_idsHold net leadId
                  (fun n => is_positive_integer n = true) fields w Hl Hall) as H.
    unfold idsHold in H. rewrite assemble_loop in H. exact H.
Qed.

(** The key "0" is sent as field id 0, and next to it the name "Nombre"
    still gets the positive id of its field. *)
Lemma field_ids_positive_for_names_and_positive_keys_witness :
  is_positive_integer
    (cfv_field_id (mkPayloadEntry (Int 610) [mkFieldValue "Juan" None None]))
  = true
  /\ In (mkPayloadEntry (Int 610) [mkFieldValue "Juan" None None])
        (customFieldsValues
           (fst (assemble steadyNet (Int 42)
                   [("0", "x"); ("Nombre", "Juan")] world0))).
Proof.
  pose proof (field_ids_positive_for_names_and_positive_keys steadyNet (Int 42)
                [("0", "x"); ("Nombre", "Juan")] world0
                steadyNet_ids_positive) as H.
  cbv zeta in H. destruct H as [H _].
  destruct (H [("0", "x")] "Nombre" "Juan" []
              (mkPayloadEntry (Int 610) [mkFieldValue "Juan" None None])
              eq_refl eq_refl) as (H1 & _ & H3).
  split; [apply H3; left; reflexivity | exact H1].
Defined.

(** C9, as the code has it: when the initial read of the lead fails, the
    batch goes on with an empty name map and nothing of that failure is
    reported - the errors of the outcome are those of the entries, and its
    [error] is that of the one write, or 'No fields could be mapped to
    field IDs'.  Entry by entry: a numeric key is handled with its number
    as field id; a key that is no number is looked up by a read of the
    lead of its own, and is recorded as "Field not found" when that read
    fails too, but resolves, when that read succeeds, to the first field
    of the lead whose name or code contains it.  When no read of the lead
    succeeds, every key that is no number is recorded as "Field not
    found". *)
Theorem unreadable_lead_leaves_numeric_keys
        (net : Transport) (leadId : number)
        (fields : list (string * string)) (w : World) :
  cf_success (fst (getLeadCustomFields net leadId w)) = false ->
  let acc := fst (assemble net leadId fields w) in
  let w1 := snd (assemble net leadId fields w) in
  let out := fst (updateLeadCustomFields net leadId fields w) in
  let notFound key := mkFieldError key (FieldNotFound key) in
  assemble net leadId fields w
  = forEntries net leadId ∅ fields (mkAcc [] []) (leadRead leadId w)
  /\ match errors out with Some l => l | None => [] end = acc_errors acc
  /\ error out
     = match customFieldsValues acc with
       | [] => Some NoFieldsMapped
       | body => lw_error (fst (updateLead net leadId body w1))
       end
  /\ (forall pre key raw post,
        fields = (pre ++ (key, raw) :: post)%list ->
        let st :=
          forEntries net leadId ∅ pre (mkAcc [] []) (leadRead leadId w) in
        let turn := processEntry net leadId ∅ (key, raw) (fst st) (snd st) in
        (isNaN (Number key) = false ->
         turn = applyValue net key raw (Number key) (fst st) (snd st)
         /\ ((exists vals,
                 In (mkPayloadEntry (Number key) vals) (customFieldsValues acc))
             \/ (exists e, In e (acc_errors acc)
                           /\ isNotFound e = false /\ field e = key)))
        /\ (isNaN (Number key) = true ->
            cf_success (fst (getLeadCustomFields net leadId (snd st))) = false ->
            turn = (pushError (fst st) (notFound key), leadRead leadId (snd st))
            /\ In (notFound key) (acc_errors acc))
        /\ (isNaN (Number key) = true ->
            forall cfs,
              cf_success (fst (getLeadCustomFields net leadId (snd st))) = true ->
              customFields (fst (getLeadCustomFields net leadId (snd st)))
              = Some cfs ->
              fst (resolveFieldId net leadId ∅ key (snd st))
              = field_id <$> List.find (textMatches key) cfs
              /\ turn
                 = match List.find (textMatches key) cfs with
                   | Some f =>
                       if truthy (field_id f)
                       then applyValue net key raw (field_id f) (fst st)
                              (leadRead leadId (snd st))
                       else (pushError (fst st) (notFound key),
                             leadRead leadId (snd st))
                   | None =>
                       (pushError (fst st) (notFound key),
                        leadRead leadId (snd st))
                   end))
  /\ ((forall n, leadFetchFails (get_lead net n)) ->
      forall key raw,
        In (key, raw) fields -> isNaN (Number key) = true ->
        In (notFound key) (acc_errors acc)).
Proof.
  intros Hfail. cbv zeta.
  assert (Ha : assemble net leadId fields w
               = forEntries net leadId ∅ fields (mkAcc [] [])
                   (leadRead leadId w)).
  { rewrite assemble_loop, getLeadCustomFields_world.
    unfold buildNameToIdMap. rewrite Hfail. reflexivity. }
  split; [exact Ha |].
  split; [| split; [| split]].
  - rewrite updateLeadCustomFields_phases. cbv zeta.
    destruct (assemble net leadId fields w) as [acc w1]. cbn [fst snd].
    destruct (customFieldsValues acc) as [| p ps]; [reflexivity |].
    cbn [fst].
    destruct (negb (lw_success (fst (updateLead net leadId (p :: ps) w1))));
      cbn [errors]; destruct (acc_errors acc); reflexivity.
  - rewrite updateLeadCustomFields_phases. cbv zeta.
    destruct (assemble net leadId fields w) as [acc w1]. cbn [fst snd].
    destruct (customFieldsValues acc) as [| p ps]; [reflexivity |].
    cbn [fst].
    pose proof (updateLead_success net leadId (p :: ps) w1) as Hs.
    destruct (lw_success (fst (updateLead net leadId (p :: ps) w1)));
      cbn [negb error]; [rewrite Hs; reflexivity | reflexivity].
  - intros pre key raw post ->. cbv zeta. rewrite Ha.
    destruct (turn_stays net leadId ∅ pre (key, raw) post (mkAcc [] [])
                (leadRead leadId w)) as [Hv He].
    set (st := forEntries net leadId ∅ pre (mkAcc [] []) (leadRead leadId w))
      in *.
    split; [| split].
    + intros En.
      assert (Hp : processEntry net leadId ∅ (key, raw) (fst st) (snd st)
                   = applyValue net key raw (Number key) (fst st) (snd st)).
      { destruct (processEntry_cases net leadId ∅ key raw (fst st) (snd st))
          as [[_ H] | [[E _] | [E _]]]; congruence. }
      split; [exact Hp |]. rewrite Hp in Hv, He.
      destruct (applyValue_pushed_key net key raw (Number key) (fst st) (snd st))
        as [[vals Hpush] | (e & Hpush & Hnf & Hf)]; rewrite Hpush in Hv, He.
      * left. exists vals. apply Hv. simpl.
        apply in_or_app. right. left. reflexivity.
      * right. exists e. split; [| auto]. apply He. simpl.
        apply in_or_app. right. left. reflexivity.
    + intros En Hs.
      destruct (resolveFieldId_empty_map net leadId key (snd st) En) as [Hr _].
      assert (Hp : processEntry net leadId ∅ (key, raw) (fst st) (snd st)
                   = (pushError (fst st) (mkFieldError key (FieldNotFound key)),
                      leadRead leadId (snd st))).
      { rewrite (processEntry_text net leadId ∅ key raw _ _ En), (Hr Hs).
        reflexivity. }
      split; [exact Hp |]. rewrite Hp in He. apply He. simpl.
      apply in_or_app. right. left. reflexivity.
    + intros En cfs Hs Hc.
      destruct (resolveFieldId_empty_map net leadId key (snd st) En) as [_ Hr].
      split; [apply (Hr cfs Hs Hc) |].
      rewrite (processEntry_text net leadId ∅ key raw _ _ En), (Hr cfs Hs Hc).
      destruct (List.find (textMatches key) cfs); reflexivity.
  - intros Hu key raw Hin En. rewrite Ha.
    destruct (forEntries_unreadable net leadId Hu fields (mkAcc [] [])
                (leadRead leadId w)) as [H1 _].
    apply (H1 key raw Hin En).
Qed.

(** The first read fails, the read of the search succeeds, and "City"
    resolves to its field. *)
Lemma unreadable_lead_leaves_numeric_keys_witness :
  cf_success (fst (getLeadCustomFields flakyNet (Int 42) world0)) = false
  /\ fst (resolveFieldId flakyNet (Int 42) ∅ "City" (leadRead (Int 42) world0))
     = Some (Int 501).
Proof.
  split; [reflexivity |].
  pose proof (unreadable_lead_leaves_numeric_keys flakyNet (Int 42)
                [("City", "cali")] world0 eq_refl) as H.
  cbv zeta in H. destruct H as (_ & _ & _ & H & _).
  destruct (H [] "City" "cali" [] eq_refl) as (_ & _ & H3).
  destruct (H3 eq_refl
              [mkCustomField (Int 501) (Some "City") None (Some "select")
                 [mkFieldValue "Cali" None (Some (Int 33))];
               mkCustomField (Int 610) (Some "Nombre") (Some "NAME") (Some "text")
                 [mkFieldValue "Ana" None None]]
              eq_refl eq_refl) as [Hr _].
  exact Hr.
Defined.
